(** * Scoring engine of the audio-fingerprinting benchmark toolkit

    A shallow embedding of [evaluate_matches.py] (with the constants of
    [fields.py] and the conversions of [util.py]) and the properties of
    its scoring engine.

    Conventions of the embedding:
    - Python [int] is [Z]; Python [float] is idealised as an exact
      rational [Q] (no rounding of products and quotients);
    - a [portion] interval is the sorted list of its closed-open atomic
      ranges with integer bounds;
    - a CSV row is a finite map from field names to Python values;
    - the tag sets of the accumulators are mutable objects: they live in
      a store and are referred to by location;
    - a raised exception is [None] in the option monad. *)

From Stdlib Require Import ZArith QArith Qround Qpower Lia Lqa String Ascii List.
From stdpp Require Import base option list gmap strings pretty.

Local Open Scope Z_scope.

(** ** The interval library ([portion]) *)

Module portion.

(** An atomic range [[lower, upper)]. *)
Definition Atomic : Type := Z * Z.

Definition lower (x : Atomic) : Z := fst x.
Definition upper (x : Atomic) : Z := snd x.

(** An interval: its atomic ranges, sorted and pairwise disjoint. The
    empty interval has no atomic range. *)
Definition Interval : Type := list Atomic.

Definition empty : Interval := [].

(** [portion.closedopen(l, u)]: empty unless [l < u]. *)
Definition closedopen (l u : Z) : Interval :=
  if l <? u then [(l, u)] else [].

(** The [.empty] property. *)
Definition is_empty (i : Interval) : bool :=
  match i with [] => true | _ :: _ => false end.

(** Truth value of an interval ([__len__], the number of atomic ranges,
    is nonzero). *)
Definition truthy (i : Interval) : bool := negb (is_empty i).

(** [a & b] *)
Definition inter_atomic (x y : Atomic) : Interval :=
  closedopen (Z.max (lower x) (lower y)) (Z.min (upper x) (upper y)).

Definition inter (a b : Interval) : Interval :=
  flat_map (fun x => flat_map (inter_atomic x) b) a.

(** Insertion of one atomic range, merging the ranges it touches. *)
Fixpoint insert (a : Atomic) (xs : Interval) : Interval :=
  match xs with
  | [] => [a]
  | x :: xs' =>
      if upper a <? lower x then a :: x :: xs'
      else if upper x <? lower a then x :: insert a xs'
      else insert (Z.min (lower a) (lower x), Z.max (upper a) (upper x)) xs'
  end.

(** [a | b] *)
Definition union (a b : Interval) : Interval :=
  fold_right insert a b.

(** [x - y] for atomic ranges, [y] not empty. *)
Definition sub_atomic (y x : Atomic) : Interval :=
  closedopen (lower x) (Z.min (upper x) (lower y))
    ++ closedopen (Z.max (lower x) (upper y)) (upper x).

(** [a - b] *)
Definition diff (a b : Interval) : Interval :=
  fold_left (fun acc y => flat_map (sub_atomic y) acc) b a.

(** Membership of a point. *)
Definition mem_atomic (z : Z) (x : Atomic) : bool :=
  (lower x <=? z) && (z <? upper x).

Definition mem (z : Z) (i : Interval) : bool := existsb (mem_atomic z) i.

(** Well-formed intervals: non-empty atomic ranges, in increasing
    order, none starting before the previous one ends. *)
Fixpoint sorted_from (lo : Z) (i : Interval) : Prop :=
  match i with
  | [] => True
  | x :: r => lo <= lower x /\ lower x < upper x /\ sorted_from (upper x) r
  end.

Definition wf (i : Interval) : Prop :=
  match i with
  | [] => True
  | x :: _ => sorted_from (lower x) i
  end.

(** Sorted, with every bound between [lo] and [hi]. *)
Fixpoint sorted_in (lo hi : Z) (i : Interval) : Prop :=
  match i with
  | [] => True
  | x :: r => lo <= lower x /\ lower x < upper x /\ upper x <= hi
              /\ sorted_in (upper x) hi r
  end.

(** The number of the integers [lo], ..., [lo + n - 1] that satisfy [f]. *)
Fixpoint count_from (f : Z -> bool) (lo : Z) (n : nat) : Z :=
  match n with
  | O => 0
  | S k => Z.b2z (f lo) + count_from f (lo + 1) k
  end.

(** The number of the integers of [[lo, hi)] that satisfy [f]. *)
Definition measure (f : Z -> bool) (lo hi : Z) : Z :=
  count_from f lo (Z.to_nat (hi - lo)).

End portion.

Import portion.

(** [get_interval_length] *)
Definition get_interval_length (interval : Interval) : Z :=
  fold_right Z.add 0
    (map (fun x => upper x - lower x)
       (List.filter (fun x => negb (upper x <=? lower x)) interval)).

(** ** Numbers *)

Definition Qltb (x y : Q) : bool := negb (Qle_bool y x).

(** True division [x / y]; [None] is [ZeroDivisionError]. *)
Definition truediv (x y : Q) : option Q :=
  if Qeq_bool y 0 then None else Some (x / y)%Q.

Definition Qsum (l : list Q) : Q := fold_left Qplus l 0%Q.

(** [calculate_f_score]: the precision weighs nine times the recall. *)
Definition calculate_f_score (recall precision : Q) : option Q :=
  if Qltb 0 (recall + precision)
  then truediv (10 * recall * precision) (9 * recall + precision)
  else Some 0%Q.

(** [round_towards_target] *)
Definition round_towards_target (value target : Q) : Z :=
  if Qltb value target then Qceiling value else Qfloor value.

(** ** Rows and their fields *)

(** The values a row can hold. *)
Inductive pyval : Type :=
| VNone
| VStr (s : string)
| VInt (n : Z).

Definition FIELD_ANNOTATION_TEMPO : string := "tempo".
Definition FIELD_ANNOTATION_PITCH : string := "pitch".
Definition FIELD_ANNOTATION_ECHO_DELAY : string := "echo_delay".
Definition FIELD_ANNOTATION_HIGH_PASS : string := "high_pass".
Definition FIELD_ANNOTATION_LOW_PASS : string := "low_pass".
Definition FIELD_ANNOTATION_REVERB : string := "reverb".
Definition FIELD_ANNOTATION_NOISE_TYPE : string := "noise_type".
Definition FIELD_ANNOTATION_NOISE_COLOR : string := "noise_color".
Definition FIELD_ANNOTATION_NOISE_SNR : string := "noise_snr".
Definition FIELD_ANNOTATION_MERGE_PREV : string := "merge_prev".
Definition FIELD_ANNOTATION_MERGE_NEXT : string := "merge_next".
Definition NOISE_TYPE_SAMPLE : string := "sample".

(** The newline character. *)
Definition LF : ascii := ascii_of_nat 10.

Definition is_digit (c : ascii) : bool :=
  let n := nat_of_ascii c in (48 <=? n)%nat && (n <=? 57)%nat.

Definition is_sign (c : ascii) : bool :=
  Ascii.eqb c "+" || Ascii.eqb c "-".

(** The tail of the pattern: more digits, then [$], which holds at the
    end of the string and also just before a newline that ends it. *)
Fixpoint digits_then_end (s : string) : bool :=
  match s with
  | EmptyString => true
  | String c r =>
      if is_digit c then digits_then_end r
      else Ascii.eqb c LF && String.eqb r EmptyString
  end.

Definition digits1_then_end (s : string) : bool :=
  match s with
  | EmptyString => false
  | String c r => is_digit c && digits_then_end r
  end.

(** [re.match(r'^[+-]?\d+$', s)] as a truth value, on strings of 8-bit
    characters (where the decimal digits are 0 to 9). *)
Definition re_match_int (s : string) : bool :=
  match s with
  | EmptyString => false
  | String c r => if is_sign c then digits1_then_end r else digits1_then_end s
  end.

Fixpoint parse_digits (acc : Z) (s : string) : Z :=
  match s with
  | EmptyString => acc
  | String c r =>
      if is_digit c
      then parse_digits (10 * acc + (Z.of_nat (nat_of_ascii c) - 48)) r
      else acc
  end.

(** [int(s)] on the strings the pattern accepts (surrounding white space
    is not part of the number). *)
Definition py_int (s : string) : Z :=
  match s with
  | EmptyString => 0
  | String c r =>
      if Ascii.eqb c "-" then - parse_digits 0 r
      else if Ascii.eqb c "+" then parse_digits 0 r
      else parse_digits 0 s
  end.

(** [get_item_as_int] *)
Definition get_item_as_int (d : gmap string pyval) (key : string) (default : Z) : Z :=
  let value := match d !! key with Some v => v | None => VInt default end in
  match value with
  | VStr s => if re_match_int s then py_int s else default
  | _ => default
  end.

(** ** Thresholds of the tag classifier *)

Definition THRESHOLD_SMALL : Q := (1 - (7 # 100))%Q.
Definition THRESHOLD_MEDIUM : Q := (1 - (7 # 100) * 3)%Q.

(** [pitch_scale_to_cents scale] is [1200 * log2 scale], which is not a
    rational number; its comparison with an integer is:
    [n <= 1200 * log2 scale] iff [2 ^ n <= scale ^ 1200]. *)
Definition cents_ge (scale : Q) (n : Z) : bool :=
  Qle_bool (Qpower 2 n) (Qpower scale 1200).

Definition cents_le (scale : Q) (n : Z) : bool :=
  Qle_bool (Qpower scale 1200) (Qpower 2 n).

(** The binary logarithm of a positive rational, within one unit. *)
Definition log2_estimate (x : Q) : Z :=
  Z.log2 (Qnum x) - Z.log2 (Zpos (Qden x)).

(** [math.floor(pitch_scale_to_cents(scale))], for a positive scale. *)
Definition floor_pitch_scale_to_cents (scale : Q) : Z :=
  let g := log2_estimate (Qpower scale 1200) in
  if cents_ge scale g then g else g - 1.

(** [math.ceil(pitch_scale_to_cents(scale))], for a positive scale. *)
Definition ceil_pitch_scale_to_cents (scale : Q) : Z :=
  let g := log2_estimate (Qpower scale 1200) in
  if cents_le scale g then g else g + 1.

(** [tempo_scale_to_per_cent] *)
Definition tempo_scale_to_per_cent (scale : Q) : Q := 100 * scale.

(** The module constants; each is evaluated once, when it is defined. *)

Definition MIN_PITCH_SMALL : Z :=
  Eval vm_compute in ceil_pitch_scale_to_cents THRESHOLD_SMALL.
Definition MAX_PITCH_SMALL : Z :=
  Eval vm_compute in floor_pitch_scale_to_cents (1 / THRESHOLD_SMALL).
Definition MIN_PITCH_MEDIUM : Z :=
  Eval vm_compute in ceil_pitch_scale_to_cents THRESHOLD_MEDIUM.
Definition MAX_PITCH_MEDIUM : Z :=
  Eval vm_compute in floor_pitch_scale_to_cents (1 / THRESHOLD_MEDIUM).
Definition MIN_TEMPO_SMALL : Z :=
  Eval vm_compute in Qceiling (tempo_scale_to_per_cent THRESHOLD_SMALL).
Definition MAX_TEMPO_SMALL : Z :=
  Eval vm_compute in Qfloor (tempo_scale_to_per_cent (1 / THRESHOLD_SMALL)).
Definition MIN_TEMPO_MEDIUM : Z :=
  Eval vm_compute in Qceiling (tempo_scale_to_per_cent THRESHOLD_MEDIUM).
Definition MAX_TEMPO_MEDIUM : Z :=
  Eval vm_compute in Qfloor (tempo_scale_to_per_cent (1 / THRESHOLD_MEDIUM)).

(** ** The tag classifier *)

Definition dict_get (d : gmap string pyval) (key : string) (default : pyval) : pyval :=
  match d !! key with Some v => v | None => default end.

(** Truth value of a Python value. *)
Definition truth (v : pyval) : bool :=
  match v with
  | VNone => false
  | VStr s => negb (String.eqb s "")
  | VInt n => negb (n =? 0)
  end.

Definition pyval_eqb_str (v : pyval) (s : string) : bool :=
  match v with VStr t => String.eqb t s | _ => false end.

(** [str(v)], as an f-string formats it. *)
Definition py_str (v : pyval) : string :=
  match v with
  | VNone => "None"
  | VStr s => s
  | VInt n => pretty n
  end.

(** [s + v] for a string [s]; [None] is [TypeError]. *)
Definition str_add (s : string) (v : pyval) : option string :=
  match v with VStr t => Some (s +:+ t) | _ => None end.

Definition between (lo x hi : Z) : bool := (lo <=? x) && (x <=? hi).

(** The tempo, pitch and speed tags (speed is tempo and pitch at once). *)
Definition tempo_pitch_tags (tempo pitch : Z) : list string :=
  (if tempo =? 100 then
     if pitch =? 0 then ["pitch:exact"]
     else if between MIN_PITCH_SMALL pitch MAX_PITCH_SMALL then ["pitch:small"]
     else if between MIN_PITCH_MEDIUM pitch MAX_PITCH_MEDIUM then ["pitch:medium"]
     else ["pitch:large"]
   else [])
  ++ (if pitch =? 0 then
        if tempo =? 100 then ["tempo:exact"; "speed:exact"]
        else if between MIN_TEMPO_SMALL tempo MAX_TEMPO_SMALL then ["tempo:small"]
        else if between MIN_TEMPO_MEDIUM tempo MAX_TEMPO_MEDIUM then ["tempo:medium"]
        else ["tempo:large"]
      else [])
  ++ (if negb (tempo =? 100) && negb (pitch =? 0) then
        if between MIN_TEMPO_SMALL tempo MAX_TEMPO_SMALL then ["speed:small"]
        else if between MIN_TEMPO_MEDIUM tempo MAX_TEMPO_MEDIUM then ["speed:medium"]
        else ["speed:large"]
      else []).

Definition flag_tag (annotation : gmap string pyval) (field tag : string) : list string :=
  if negb (get_item_as_int annotation field 0 =? 0) then [tag] else [].

Definition noise_tags (annotation : gmap string pyval) : option (list string) :=
  let noise_type := dict_get annotation FIELD_ANNOTATION_NOISE_TYPE (VStr "") in
  let noise_color := dict_get annotation FIELD_ANNOTATION_NOISE_COLOR (VStr "") in
  let noise_snr := dict_get annotation FIELD_ANNOTATION_NOISE_SNR (VStr "") in
  kind ← (if pyval_eqb_str noise_type NOISE_TYPE_SAMPLE then Some "noise:sample"
          else if truth noise_color then str_add "noise:" noise_color
          else Some "noise:none");
  Some (kind :: (if negb (pyval_eqb_str noise_snr "")
                 then ["noise:" +:+ py_str noise_snr +:+ "dB"] else [])).

Definition merge_tag (annotation : gmap string pyval) (field prefix default : string)
  : option string :=
  let merge := dict_get annotation field (VStr default) in
  let merge := if negb (truth merge) then VStr default else merge in
  str_add prefix merge.

(** [get_tags_from_annotation] *)
Definition get_tags_from_annotation (annotation : gmap string pyval)
  : option (list string) :=
  let tempo := get_item_as_int annotation FIELD_ANNOTATION_TEMPO 100 in
  let pitch := get_item_as_int annotation FIELD_ANNOTATION_PITCH 0 in
  let tags := tempo_pitch_tags tempo pitch in
  let tags := tags ++ flag_tag annotation FIELD_ANNOTATION_ECHO_DELAY "echo" in
  let tags := tags ++ flag_tag annotation FIELD_ANNOTATION_HIGH_PASS "high-pass" in
  let tags := tags ++ flag_tag annotation FIELD_ANNOTATION_LOW_PASS "low-pass" in
  let tags := tags ++ flag_tag annotation FIELD_ANNOTATION_REVERB "reverb" in
  noise ← noise_tags annotation;
  let tags := tags ++ noise in
  merge_prev ← merge_tag annotation FIELD_ANNOTATION_MERGE_PREV "merge_prev:" "begin";
  let tags := tags ++ [merge_prev] in
  merge_next ← merge_tag annotation FIELD_ANNOTATION_MERGE_NEXT "merge_next:" "end";
  Some (tags ++ [merge_next]).

(** ** Result accumulators *)

(** The tag sets are mutable [set] objects; an object is named by its
    location in the store. *)
Definition loc : Type := positive.

(** The [tags] argument of [add]: a reference to a set object that
    exists already, or a collection built for this call. *)
Inductive tags_arg : Type :=
| ByRef (l : loc)
| Fresh (elements : list string).

Definition deref (h : gmap loc (gset string)) (l : loc) : gset string :=
  match h !! l with Some s => s | None => ∅ end.

Definition tags_of (h : gmap loc (gset string)) (tags : tags_arg) : gset string :=
  match tags with
  | ByRef l => deref h l
  | Fresh elements => list_to_set elements
  end.

(** [target.update(tags)]: only the object at [target] is written. *)
Definition set_update (target : loc) (tags : tags_arg) (h : gmap loc (gset string))
  : gmap loc (gset string) :=
  <[target := deref h target ∪ tags_of h tags]> h.

(** [set()] *)
Definition new_set (h : gmap loc (gset string)) : loc * gmap loc (gset string) :=
  let l := fresh (dom h) in (l, <[l := ∅]> h).

Module RecallPrecisionResults.

Record t : Type := Build {
  _recalls : list Q;
  _precisions : list Q;
  _tags : loc
}.

(** The object that the default value [tags=set()] of [add] evaluated
    to, when the class was defined. *)
Definition add_default : loc := 1%positive.

Definition __init__ (h : gmap loc (gset string)) : t * gmap loc (gset string) :=
  let '(l, h) := new_set h in
  ({| _recalls := []; _precisions := []; _tags := l |}, h).

Definition add (recall precision : Q) (tags : tags_arg)
    (self : t) (h : gmap loc (gset string)) : t * gmap loc (gset string) :=
  ({| _recalls := _recalls self ++ [recall];
      _precisions := _precisions self ++ [precision];
      _tags := _tags self |},
   set_update (_tags self) tags h).

Definition get (self : t) : option (Q * Q * Q) :=
  recall ← match _recalls self with
           | [] => Some 0%Q
           | _ :: _ => truediv (Qsum (_recalls self))
                         (inject_Z (Z.of_nat (length (_recalls self))))
           end;
  precision ← match _precisions self with
              | [] => Some 1%Q
              | _ :: _ => truediv (Qsum (_precisions self))
                            (inject_Z (Z.of_nat (length (_precisions self))))
              end;
  f_score ← calculate_f_score recall precision;
  Some (recall, precision, f_score).

End RecallPrecisionResults.

Module PositivesNegativesResults.

Record t : Type := Build {
  super : RecallPrecisionResults.t;
  _tp : Z;
  _up : Z;
  _fp : Z;
  _fn : Z
}.

(** The default [tags=set()] of this class's own [add]. *)
Definition add_default : loc := 2%positive.

Definition __init__ (h : gmap loc (gset string)) : t * gmap loc (gset string) :=
  let '(base, h) := RecallPrecisionResults.__init__ h in
  ({| super := base; _tp := 0; _up := 0; _fp := 0; _fn := 0 |}, h).

Definition add (tp up fp fn : Z) (tags : tags_arg)
    (self : t) (h : gmap loc (gset string)) : t * gmap loc (gset string) :=
  let recall := if 0 <? tp + fn then (inject_Z tp / inject_Z (tp + fn))%Q else 0%Q in
  let precision := if 0 <? tp + fp then (inject_Z tp / inject_Z (tp + fp))%Q else 1%Q in
  let '(base, h) := RecallPrecisionResults.add recall precision tags (super self) h in
  ({| super := base;
      _tp := _tp self + tp;
      _up := _up self + up;
      _fp := _fp self + fp;
      _fn := _fn self + fn |}, h).

Definition get (self : t) : option (Q * Q * Q * Z * Z * Z * Z) :=
  '(recall, precision, f_score) ← RecallPrecisionResults.get (super self);
  Some (recall, precision, f_score, _tp self, _up self, _fp self, _fn self).

End PositivesNegativesResults.

(** The store when the module has been loaded: the two default sets. *)
Definition module_store : gmap loc (gset string) :=
  {[ RecallPrecisionResults.add_default := ∅;
     PositivesNegativesResults.add_default := ∅ ]}.

(** ** Evaluators *)

(** A loop whose body can raise. *)
Fixpoint foldM {A B : Type} (f : B -> A -> option B) (b : B) (l : list A) : option B :=
  match l with
  | [] => Some b
  | x :: r => match f b x with Some b' => foldM f b' r | None => None end
  end.

(** Truth value of a list. *)
Definition bool_of_list {A : Type} (l : list A) : bool :=
  match l with [] => false | _ :: _ => true end.

Definition Zsum (l : list Z) : Z := fold_right Z.add 0 l.

(** [range(n)] *)
Definition range (n : nat) : list nat := seq 0 n.

(** A Python [dict] with its keys in insertion order. *)
Definition keys {K V : Type} (d : list (K * V)) : list K := map fst d.

Fixpoint getitem {K V : Type} `{EqDecision K} (d : list (K * V)) (k : K) : option V :=
  match d with
  | [] => None
  | (k', v) :: r => if decide (k' = k) then Some v else getitem r k
  end.

Definition contains {K V : Type} `{EqDecision K} (d : list (K * V)) (k : K) : bool :=
  match getitem d k with Some _ => true | None => false end.

Section BaseEvaluator.

Context {Segment Self : Type}.

(** The abstract method. *)
Variable _evaluate_pair :
  string * string -> list Segment -> list Segment -> Self -> option Self.

(** [BaseEvaluator.evaluate] *)
Definition evaluate (annotations matches : list (string * string * list Segment))
    (self : Self) : option Self :=
  self ← foldM (fun self pair =>
                  match_ ← getitem matches pair;
                  if contains annotations pair
                  then annotation ← getitem annotations pair;
                       _evaluate_pair pair annotation match_ self
                  else _evaluate_pair pair [] match_ self)
               self (keys matches);
  foldM (fun self pair =>
           if negb (contains matches pair)
           then annotation ← getitem annotations pair;
                _evaluate_pair pair annotation [] self
           else Some self)
        self (keys annotations).

End BaseEvaluator.

(** The state of an evaluator: the store of set objects and the four
    result tables. *)
Record Evaluator (R : Type) : Type := BuildEvaluator {
  heap : gmap loc (gset string);
  _pair_results : gmap (string * string) R;
  _ref_results : gmap string R;
  _tag_results : gmap string R;
  _all_results : R
}.
Arguments BuildEvaluator {R}.
Arguments heap {R}.
Arguments _pair_results {R}.
Arguments _ref_results {R}.
Arguments _tag_results {R}.
Arguments _all_results {R}.

Section StoreResults.

Context {R Segment : Type}.

(** The constructor of the accumulator class and its [add] with the
    scores of the pair already given: only the tags vary. *)
Variable new : gmap loc (gset string) -> R * gmap loc (gset string).
Variable add : tags_arg -> R -> gmap loc (gset string) -> R * gmap loc (gset string).
Variable add_default : loc.
Variable row : Segment -> gmap string pyval.

Definition __init__ : Evaluator R :=
  let '(r, h) := new module_store in
  {| heap := h; _pair_results := ∅; _ref_results := ∅; _tag_results := ∅;
     _all_results := r |}.

(** [table[key].add(..., tags)] on a [defaultdict] of accumulators. *)
Definition table_add {K : Type} `{Countable K} (key : K) (tags : tags_arg)
    (st : gmap K R * gmap loc (gset string)) : gmap K R * gmap loc (gset string) :=
  let '(table, h) := st in
  let '(r, h) := match table !! key with Some r => (r, h) | None => new h end in
  let '(r, h) := add tags r h in
  (<[key := r]> table, h).

(** The part "store the results" of the three [_evaluate_pair]. *)
Definition store_results (pair : string * string) (annotation : list Segment)
    (self : Evaluator R) : option (Evaluator R) :=
  tags ← match annotation with
         | [] => Some []
         | a :: _ => get_tags_from_annotation (row a)
         end;
  let '(pair_results, h) := table_add pair (Fresh tags) (_pair_results self, heap self) in
  let '(ref_results, h) := table_add (snd pair) (ByRef add_default) (_ref_results self, h) in
  '(tag_results, h) ←
    foldM (fun st a =>
             tags ← get_tags_from_annotation (row a);
             Some (fold_left (fun st tag => table_add tag (Fresh [tag]) st) tags st))
          (_tag_results self, h) annotation;
  let '(all_results, h) := add (Fresh ["TOTAL"]) (_all_results self) h in
  Some {| heap := h; _pair_results := pair_results; _ref_results := ref_results;
          _tag_results := tag_results; _all_results := all_results |}.

End StoreResults.

Module TrackEvaluator.

Definition __init__ : Evaluator PositivesNegativesResults.t :=
  __init__ PositivesNegativesResults.__init__.

(** The scores [(tp, up, fp, fn)] of a pair. *)
Definition scores {Segment : Type} (annotation match_ : list Segment) : Z * Z * Z * Z :=
  let b_annotation := bool_of_list annotation in
  let b_match := bool_of_list match_ in
  let tp := Z.b2z (b_annotation && b_match) in
  let fn := Z.b2z (b_annotation && negb b_match) in
  let fp := Z.b2z (negb b_annotation && b_match) in
  let up := 0 in
  (tp, up, fp, fn).

Definition _evaluate_pair (pair : string * string)
    (annotation match_ : list (gmap string pyval))
    (self : Evaluator PositivesNegativesResults.t)
  : option (Evaluator PositivesNegativesResults.t) :=
  let '(tp, up, fp, fn) := scores annotation match_ in
  store_results PositivesNegativesResults.__init__
    (PositivesNegativesResults.add tp up fp fn)
    PositivesNegativesResults.add_default id pair annotation self.

End TrackEvaluator.

(** A segment once [convert_segment_ranges] has added the two interval
    entries to its row. *)
Record Segment : Type := BuildSegment {
  row : gmap string pyval;
  reference_interval : Interval;
  query_interval : Interval
}.

Definition no_segment : Segment :=
  {| row := ∅; reference_interval := empty; query_interval := empty |}.

(** [overlaps[m][a]]: the intersections of annotation [a] and match [m]
    on the reference axis and on the query axis. *)
Definition overlap (a m : Segment) : Interval * Interval :=
  (inter (reference_interval a) (reference_interval m),
   inter (query_interval a) (query_interval m)).

Definition overlaps (annotation match_ : list Segment) : list (list (Interval * Interval)) :=
  map (fun m => map (fun a => overlap a m) annotation) match_.

Definition overlap_at (ov : list (list (Interval * Interval))) (m a : nat)
  : Interval * Interval :=
  nth a (nth m ov []) (empty, empty).

(** One step of the inner loops: the overlap counts when it is not empty
    on both axes. *)
Definition add_overlap (o : Interval * Interval) (u : Interval * Interval)
  : Interval * Interval :=
  if negb (is_empty (fst o)) && negb (is_empty (snd o))
  then (union (fst u) (fst o), union (snd u) (snd o))
  else u.

(** The unions for annotation [a], over the matches. *)
Definition unions_of_annotation (ov : list (list (Interval * Interval)))
    (n_match a : nat) : Interval * Interval :=
  fold_left (fun u m => add_overlap (overlap_at ov m a) u) (range n_match) (empty, empty).

(** The unions for match [m], over the annotations. *)
Definition unions_of_match (ov : list (list (Interval * Interval)))
    (n_annotation m : nat) : Interval * Interval :=
  fold_left (fun u a => add_overlap (overlap_at ov m a) u) (range n_annotation) (empty, empty).

Definition ratio (num den : Z) (otherwise : Q) : Q :=
  if negb (den =? 0) then (inject_Z num / inject_Z den)%Q else otherwise.

Module BoundingBoxSegmentEvaluator.

Definition __init__ : Evaluator RecallPrecisionResults.t :=
  __init__ RecallPrecisionResults.__init__.

(** The sums, over the indices [idx], of the lengths of the unions. *)
Definition overlap_lengths (unions : nat -> Interval * Interval) (idx : list nat) : Z * Z :=
  fold_left (fun acc i =>
               let u := unions i in
               (fst acc + get_interval_length (fst u),
                snd acc + get_interval_length (snd u)))
            idx (0, 0).

(** The recall and the precision of a pair. *)
Definition scores (annotation match_ : list Segment) : Q * Q :=
  let ov := overlaps annotation match_ in
  (* recall *)
  let '(overlap_reference_length, overlap_query_length) :=
    overlap_lengths (unions_of_annotation ov (length match_)) (range (length annotation)) in
  let annotation_reference_length :=
    Zsum (map (fun x => get_interval_length (reference_interval x)) annotation) in
  let annotation_query_length :=
    Zsum (map (fun x => get_interval_length (query_interval x)) annotation) in
  let recall := 1%Q in
  let recall := (recall * ratio overlap_reference_length annotation_reference_length 0)%Q in
  let recall := (recall * ratio overlap_query_length annotation_query_length 0)%Q in
  (* precision *)
  let '(overlap_reference_length, overlap_query_length) :=
    overlap_lengths (unions_of_match ov (length annotation)) (range (length match_)) in
  let match_reference_length :=
    Zsum (map (fun x => get_interval_length (reference_interval x)) match_) in
  let match_query_length :=
    Zsum (map (fun x => get_interval_length (query_interval x)) match_) in
  let precision := 1%Q in
  let precision := (precision * ratio overlap_reference_length match_reference_length 1)%Q in
  let precision := (precision * ratio overlap_query_length match_query_length 1)%Q in
  (recall, precision).

Definition _evaluate_pair (pair : string * string) (annotation match_ : list Segment)
    (self : Evaluator RecallPrecisionResults.t)
  : option (Evaluator RecallPrecisionResults.t) :=
  let '(recall, precision) := scores annotation match_ in
  store_results RecallPrecisionResults.__init__
    (RecallPrecisionResults.add recall precision)
    RecallPrecisionResults.add_default row pair annotation self.

End BoundingBoxSegmentEvaluator.

Module LengthSegmentEvaluator.

Definition __init__ : Evaluator PositivesNegativesResults.t :=
  __init__ PositivesNegativesResults.__init__.

(** The tempo of a segment, as a ratio. *)
Definition tempo_of (a : Segment) : Q :=
  (inject_Z (get_item_as_int (row a) FIELD_ANNOTATION_TEMPO 100) / 100)%Q.

(** What annotation [a] adds to the True Positives and to the False
    Negatives. *)
Definition annotation_scores (ov : list (list (Interval * Interval)))
    (annotation : list Segment) (n_match a : nat) : Z * Z :=
  let seg := nth a annotation no_segment in
  let tempo := tempo_of seg in
  let '(overlap_reference_union, overlap_query_union) :=
    unions_of_annotation ov n_match a in
  let annotation_reference_length := get_interval_length (reference_interval seg) in
  let overlap_reference_length := get_interval_length overlap_reference_union in
  let overlap_query_length :=
    round_towards_target (inject_Z (get_interval_length overlap_query_union) * tempo)
                         (inject_Z annotation_reference_length) in
  let overlap_length := Z.min overlap_reference_length overlap_query_length in
  let missing_reference_union := diff (reference_interval seg) overlap_reference_union in
  let missing_query_union := diff (query_interval seg) overlap_query_union in
  let missing_reference_length := get_interval_length missing_reference_union in
  let missing_query_length :=
    round_towards_target (inject_Z (get_interval_length missing_query_union) * tempo) 0 in
  let missing_length := Z.max missing_reference_length missing_query_length in
  (overlap_length, missing_length).

(** The inner loop of the pass over the matches: the tempo, the union
    of the reference overlaps and the union of all query overlaps. *)
Definition match_loop (ov : list (list (Interval * Interval)))
    (annotation : list Segment) (m : nat) (tempo : Q) : Q * Interval * Interval :=
  fold_left (fun '(tempo, overlap_reference_union, overlap_query_only_union) a =>
               let o := overlap_at ov m a in
               let tempo := if truthy (snd o)
                            then tempo_of (nth a annotation no_segment) else tempo in
               let overlap_reference_union :=
                 if negb (is_empty (fst o)) && negb (is_empty (snd o))
                 then union overlap_reference_union (fst o)
                 else overlap_reference_union in
               (tempo, overlap_reference_union, union overlap_query_only_union (snd o)))
            (range (length annotation)) (tempo, empty, empty).


(** What match [m] adds to the Unknown Positives and to the False
    Positives. *)
Definition match_scores (ov : list (list (Interval * Interval)))
    (annotation match_ : list Segment) (m : nat) : Z * Z :=
  let seg := nth m match_ no_segment in
  let match_reference_length := get_interval_length (reference_interval seg) in
  let match_query_length := get_interval_length (query_interval seg) in
  let tempo := ratio match_reference_length match_query_length 1 in
  let '(tempo, overlap_reference_union, overlap_query_only_union) :=
    match_loop ov annotation m tempo in
  let overlap_reference_length := get_interval_length overlap_reference_union in
  let overlap_query_only_length :=
    round_towards_target (inject_Z (get_interval_length overlap_query_only_union) * tempo)
                         (inject_Z match_reference_length) in
  let overlap_length := Z.max overlap_reference_length overlap_query_only_length in
  let unknown_length := Z.abs (overlap_reference_length - overlap_query_only_length) in
  let surplus_reference_length := Z.max 0 (match_reference_length - overlap_length) in
  let surplus_query_length :=
    round_towards_target (inject_Z match_query_length * tempo)
                         (inject_Z match_reference_length)
    - overlap_query_only_length in
  let surplus_length := Z.max surplus_reference_length surplus_query_length in
  (unknown_length, surplus_length).

(** The scores [(tp, up, fp, fn)] of a pair. *)
Definition scores (annotation match_ : list Segment) : Z * Z * Z * Z :=
  let ov := overlaps annotation match_ in
  let '(tp, fn) :=
    fold_left (fun '(tp, fn) a =>
                 let '(overlap_length, missing_length) :=
                   annotation_scores ov annotation (length match_) a in
                 (tp + overlap_length, fn + missing_length))
              (range (length annotation)) (0, 0) in
  let '(up, fp) :=
    fold_left (fun '(up, fp) m =>
                 let '(unknown_length, surplus_length) :=
                   match_scores ov annotation match_ m in
                 (up + unknown_length, fp + surplus_length))
              (range (length match_)) (0, 0) in
  (tp, up, fp, fn).

Definition _evaluate_pair (pair : string * string) (annotation match_ : list Segment)
    (self : Evaluator PositivesNegativesResults.t)
  : option (Evaluator PositivesNegativesResults.t) :=
  let '(tp, up, fp, fn) := scores annotation match_ in
  store_results PositivesNegativesResults.__init__
    (PositivesNegativesResults.add tp up fp fn)
    PositivesNegativesResults.add_default row pair annotation self.

End LengthSegmentEvaluator.

(** ** Notions used in the statements *)

(** The intervals of a segment are intervals of the library. *)
Definition valid_segment (s : Segment) : Prop :=
  wf (reference_interval s) /\ wf (query_interval s).

Definition in_window (lo hi : Z) (s : Segment) : Prop :=
  sorted_in lo hi (reference_interval s) /\ sorted_in lo hi (query_interval s).

(** Annotation [a] and match [m] overlap on both axes. *)
Definition double_overlap (a m : Segment) : bool :=
  negb (is_empty (fst (overlap a m))) && negb (is_empty (snd (overlap a m))).

(** The unions of the overlaps of one annotation with the matches, and of
    one match with the annotations, as loops over the lists. *)
Definition annotation_unions (a : Segment) (match_ : list Segment) : Interval * Interval :=
  fold_left (fun u m => add_overlap (overlap a m) u) match_ (empty, empty).

Definition match_unions (annotation : list Segment) (m : Segment) : Interval * Interval :=
  fold_left (fun u a => add_overlap (overlap a m) u) annotation (empty, empty).

(** A segment as [convert_segment_ranges] builds it from the bounds. *)
Definition segment_of (fields : gmap string pyval)
    (reference_begin reference_end query_begin query_end : Z) : Segment :=
  {| row := fields;
     reference_interval := closedopen reference_begin reference_end;
     query_interval := closedopen query_begin query_end |}.

(** The calls of the pairwise scorer that [evaluate] makes, in order:
    the scorer that only records its arguments. *)
Definition record_call {Segment : Type} (pair : string * string)
    (annotation match_ : list Segment)
    (trace : list (string * string * list Segment * list Segment))
  : option (list (string * string * list Segment * list Segment)) :=
  Some (trace ++ [(pair, annotation, match_)]).

Definition evaluate_calls {Segment : Type}
    (annotations matches : list (string * string * list Segment))
  : list (string * string * list Segment * list Segment) :=
  match evaluate record_call annotations matches [] with
  | Some trace => trace
  | None => []
  end.

(** The list of a pair in a mapping, empty when the pair is not a key. *)
Definition getitem_or_empty {Segment : Type}
    (d : list (string * string * list Segment)) (pair : string * string) : list Segment :=
  match getitem d pair with Some l => l | None => [] end.

(** The number of the recorded calls for a pair. *)
Definition calls_for {Segment : Type} (pair : string * string)
    (calls : list (string * string * list Segment * list Segment)) : nat :=
  length (List.filter (fun c => bool_decide (fst (fst c) = pair)) calls).

(** The calls of [evaluate], as a list: one for each key of the matches,
    then one for each key of the annotations that is no key of the
    matches. *)
Definition calls_list {Segment : Type}
    (annotations matches : list (string * string * list Segment))
  : list (string * string * list Segment * list Segment) :=
  map (fun pair => (pair, getitem_or_empty annotations pair, getitem_or_empty matches pair))
      (keys matches)
  ++ map (fun pair => (pair, getitem_or_empty annotations pair, []))
       (List.filter (fun pair => negb (contains matches pair)) (keys annotations)).

(** The four counts of an accumulator, and sums of counts. *)
Definition counts (r : PositivesNegativesResults.t) : Z * Z * Z * Z :=
  (PositivesNegativesResults._tp r, PositivesNegativesResults._up r,
   PositivesNegativesResults._fp r, PositivesNegativesResults._fn r).

Definition add4 (x y : Z * Z * Z * Z) : Z * Z * Z * Z :=
  let '(a, b, c, d) := x in
  let '(a', b', c', d') := y in
  (a + a', b + b', c + c', d + d').

Definition zero4 : Z * Z * Z * Z := (0, 0, 0, 0).

(** The counts under a key of a table, when the key is there. *)
Definition counts_at {K : Type} `{Countable K}
    (table : gmap K PositivesNegativesResults.t) (key : K) : option (Z * Z * Z * Z) :=
  counts <$> table !! key.

(** The sum of the scores of the calls, if there is a call. *)
Definition total {Segment : Type} (score : list Segment -> list Segment -> Z * Z * Z * Z)
    (calls : list (string * string * list Segment * list Segment)) : Z * Z * Z * Z :=
  fold_left (fun acc c => add4 acc (score (snd (fst c)) (snd c))) calls zero4.

Definition total_if_any {Segment : Type}
    (score : list Segment -> list Segment -> Z * Z * Z * Z)
    (calls : list (string * string * list Segment * list Segment))
  : option (Z * Z * Z * Z) :=
  match calls with [] => None | _ :: _ => Some (total score calls) end.

(** The tables hold the sums of the scores of the calls made so far: each
    pair and each reference under its key, all of them in the total; a
    tag is a key only if a row of an annotation list of a call has it. *)
Definition tables_hold {Segment : Type} (rowf : Segment -> gmap string pyval)
    (score : list Segment -> list Segment -> Z * Z * Z * Z)
    (calls : list (string * string * list Segment * list Segment))
    (self : Evaluator PositivesNegativesResults.t) : Prop :=
  (forall pair, counts_at (_pair_results self) pair
                = total_if_any score
                    (List.filter (fun c => bool_decide (fst (fst c) = pair)) calls))
  /\ (forall ref, counts_at (_ref_results self) ref
                  = total_if_any score
                      (List.filter (fun c => bool_decide (snd (fst (fst c)) = ref)) calls))
  /\ counts (_all_results self) = total score calls
  /\ (forall tag, is_Some (_tag_results self !! tag) ->
         exists c a tags, In c calls /\ In a (snd (fst c))
           /\ get_tags_from_annotation (rowf a) = Some tags /\ In tag tags).

(** A row as [csv.DictReader] yields it: the values are strings, or
    [None] for the fields that the line lacks. *)
Definition csv_row (d : gmap string pyval) : Prop :=
  forall key v, d !! key = Some v -> v = VNone \/ exists s, v = VStr s.

(** Programs that create accumulators and call [add]: the calls, the
    state they run in, and their effect. An [add] without [tags] uses the
    default object of the method. *)
Inductive call : Type :=
| NewRecallPrecision
| NewPositivesNegatives
| AddRecallPrecision (i : nat) (recall precision : Q) (tags : option tags_arg)
| AddPositivesNegatives (i : nat) (tp up fp fn : Z) (tags : option tags_arg).

Record program_state : Type := BuildState {
  objects : gmap loc (gset string);
  rp_accumulators : list RecallPrecisionResults.t;
  pn_accumulators : list PositivesNegativesResults.t
}.

Definition initial_state : program_state :=
  {| objects := module_store; rp_accumulators := []; pn_accumulators := [] |}.

Definition step (s : program_state) (c : call) : program_state :=
  match c with
  | NewRecallPrecision =>
      let '(self, h) := RecallPrecisionResults.__init__ (objects s) in
      {| objects := h; rp_accumulators := rp_accumulators s ++ [self];
         pn_accumulators := pn_accumulators s |}
  | NewPositivesNegatives =>
      let '(self, h) := PositivesNegativesResults.__init__ (objects s) in
      {| objects := h; rp_accumulators := rp_accumulators s;
         pn_accumulators := pn_accumulators s ++ [self] |}
  | AddRecallPrecision i recall precision tags =>
      match rp_accumulators s !! i with
      | Some self =>
          let tags := from_option id (ByRef RecallPrecisionResults.add_default) tags in
          let '(self, h) := RecallPrecisionResults.add recall precision tags self (objects s) in
          {| objects := h; rp_accumulators := <[i := self]> (rp_accumulators s);
             pn_accumulators := pn_accumulators s |}
      | None => s
      end
  | AddPositivesNegatives i tp up fp fn tags =>
      match pn_accumulators s !! i with
      | Some self =>
          let tags := from_option id (ByRef PositivesNegativesResults.add_default) tags in
          let '(self, h) := PositivesNegativesResults.add tp up fp fn tags self (objects s) in
          {| objects := h; rp_accumulators := rp_accumulators s;
             pn_accumulators := <[i := self]> (pn_accumulators s) |}
      | None => s
      end
  end.

Definition run (calls : list call) : program_state := fold_left step calls initial_state.

(** The set objects of the accumulators are allocated and are not the
    default objects, which are empty. *)
Definition own_tags (h : gmap loc (gset string)) (l : loc) : Prop :=
  is_Some (h !! l)
  /\ l <> RecallPrecisionResults.add_default
  /\ l <> PositivesNegativesResults.add_default.

Definition defaults_untouched (s : program_state) : Prop :=
  objects s !! RecallPrecisionResults.add_default = Some ∅
  /\ objects s !! PositivesNegativesResults.add_default = Some ∅
  /\ Forall (fun self => own_tags (objects s) (RecallPrecisionResults._tags self))
        (rp_accumulators s)
  /\ Forall (fun self => own_tags (objects s)
                          (RecallPrecisionResults._tags (PositivesNegativesResults.super self)))
        (pn_accumulators s).

(** [n] is the ceiling of [1200 * log2 scale]: [n - 1 < 1200 * log2 scale <= n],
    with the exponential applied to the three terms. *)
Definition is_ceil_of_cents (scale : Q) (n : Z) : Prop :=
  (Qpower 2 (n - 1) < Qpower scale 1200)%Q /\ (Qpower scale 1200 <= Qpower 2 n)%Q.

(** [n] is the floor of [1200 * log2 scale]. *)
Definition is_floor_of_cents (scale : Q) (n : Z) : Prop :=
  (Qpower 2 n <= Qpower scale 1200)%Q /\ (Qpower scale 1200 < Qpower 2 (n + 1))%Q.

Definition is_ceil_of (x : Q) (n : Z) : Prop :=
  (inject_Z (n - 1) < x)%Q /\ (x <= inject_Z n)%Q.

Definition is_floor_of (x : Q) (n : Z) : Prop :=
  (inject_Z n <= x)%Q /\ (x < inject_Z (n + 1))%Q.

(** The tags of the pitch, tempo and speed groups. *)
Definition band_tag (tag : string) : bool :=
  String.prefix "pitch:" tag || String.prefix "tempo:" tag || String.prefix "speed:" tag.





(** The pass over the matches, in the words of the specification. *)






(** A pair of intervals within a window, the first inside [A] and the
    second inside [B]. *)
Definition inside (lo hi : Z) (A B : Interval) (u : Interval * Interval) : Prop :=
  sorted_in lo hi (fst u) /\ sorted_in lo hi (snd u)
  /\ (forall z, mem z (fst u) = true -> mem z A = true)
  /\ (forall z, mem z (snd u) = true -> mem z B = true).

(** A new accumulator after an [add] for each observation, each with a
    list of tags of its own. *)
Definition recall_precision_after (observations : list (Q * Q * list string))
    (h : gmap loc (gset string)) : RecallPrecisionResults.t * gmap loc (gset string) :=
  fold_left (fun st o =>
               RecallPrecisionResults.add (fst (fst o)) (snd (fst o)) (Fresh (snd o))
                 (fst st) (snd st))
            observations (RecallPrecisionResults.__init__ h).

(** The arithmetic mean. *)
Definition Qmean (l : list Q) : Q := (Qsum l / inject_Z (Z.of_nat (length l)))%Q.

Definition in_unit_interval (x : Q) : Prop := (0 <= x)%Q /\ (x <= 1)%Q.

(** * Properties *)

(** ** Facts on intervals *)

Module portion_facts.

Lemma sorted_in_weaken lo hi lo' hi' i :
  sorted_in lo hi i -> lo' <= lo -> hi <= hi' -> sorted_in lo' hi' i.
Proof.
  revert lo lo'. induction i as [|x r IH]; intros lo lo' Hs Hlo Hhi; cbn in *.
  - exact I.
  - destruct Hs as (H1 & H2 & H3 & H4). repeat split; try lia.
    apply (IH (upper x)); auto; lia.
Qed.

Lemma sorted_in_from lo hi i : sorted_in lo hi i -> sorted_from lo i.
Proof.
  revert lo. induction i as [|x r IH]; intros lo Hs; cbn in *; auto.
  destruct Hs as (H1 & H2 & H3 & H4). auto.
Qed.

Lemma sorted_from_in lo i : sorted_from lo i -> exists hi, lo <= hi /\ sorted_in lo hi i.
Proof.
  revert lo. induction i as [|x r IH]; intros lo Hs; cbn in *.
  - exists lo. split; [lia | exact I].
  - destruct Hs as (H1 & H2 & H3). destruct (IH _ H3) as (hi & Hle & Hin).
    exists hi. repeat split; auto; lia.
Qed.

Lemma wf_sorted_in i : wf i -> exists lo hi, lo <= hi /\ sorted_in lo hi i.
Proof.
  destruct i as [|x r]; intros Hw.
  - exists 0, 0. split; [lia | exact I].
  - exists (lower x). apply sorted_from_in. exact Hw.
Qed.

Lemma sorted_in_wf lo hi i : sorted_in lo hi i -> wf i.
Proof.
  destruct i as [|x r]; cbn; auto.
  intros (H1 & H2 & H3 & H4). repeat split; try lia.
  eapply sorted_in_from; eauto.
Qed.

Lemma sorted_in_app lo mid hi a b :
  sorted_in lo mid a -> sorted_in mid hi b -> lo <= mid -> mid <= hi ->
  sorted_in lo hi (a ++ b).
Proof.
  revert lo. induction a as [|x r IH]; intros lo Ha Hb Hlo Hhi; cbn in *.
  - eapply sorted_in_weaken; eauto; lia.
  - destruct Ha as (H1 & H2 & H3 & H4). repeat split; try lia.
    apply IH; auto.
Qed.

Lemma wf_closedopen l u : wf (closedopen l u).
Proof.
  unfold closedopen. destruct (l <? u) eqn:E; cbn; auto.
  apply Z.ltb_lt in E. lia.
Qed.

Lemma sorted_in_closedopen lo hi l u :
  lo <= l -> u <= hi -> sorted_in lo hi (closedopen l u).
Proof.
  intros. unfold closedopen. destruct (l <? u) eqn:E; cbn; auto.
  apply Z.ltb_lt in E. lia.
Qed.

(** *** Membership *)

Lemma mem_app z a b : mem z (a ++ b) = mem z a || mem z b.
Proof. unfold mem. apply existsb_app. Qed.

Lemma mem_closedopen z l u : mem z (closedopen l u) = (l <=? z) && (z <? u).
Proof.
  unfold closedopen. destruct (l <? u) eqn:E; cbn.
  - unfold mem_atomic; cbn. apply orb_false_r.
  - symmetry. apply andb_false_iff. apply Z.ltb_ge in E.
    destruct (Z.leb_spec l z); [right; apply Z.ltb_ge; lia | now left].
Qed.

Lemma mem_flat_map z (f : Atomic -> Interval) i :
  mem z (flat_map f i) = existsb (fun x => mem z (f x)) i.
Proof.
  induction i as [|x r IH]; [reflexivity|].
  cbn [flat_map existsb]. rewrite mem_app, IH. reflexivity.
Qed.

Lemma mem_inter_atomic z x y :
  mem z (inter_atomic x y) = mem_atomic z x && mem_atomic z y.
Proof.
  unfold inter_atomic. rewrite mem_closedopen. unfold mem_atomic.
  destruct (Z.leb_spec (lower x) z), (Z.leb_spec (lower y) z),
    (Z.ltb_spec z (upper x)), (Z.ltb_spec z (upper y)),
    (Z.leb_spec (Z.max (lower x) (lower y)) z),
    (Z.ltb_spec z (Z.min (upper x) (upper y))); cbn; auto; lia.
Qed.

Lemma mem_inter z a b : mem z (inter a b) = mem z a && mem z b.
Proof.
  unfold inter. rewrite mem_flat_map.
  induction a as [|x r IH]; [reflexivity|].
  cbn [existsb]. rewrite IH, mem_flat_map.
  change (mem z (x :: r)) with (mem_atomic z x || mem z r).
  rewrite andb_orb_distrib_l. f_equal. clear IH.
  induction b as [|y s IHb].
  - cbn. now rewrite andb_false_r.
  - cbn [existsb]. rewrite IHb, mem_inter_atomic.
    change (mem z (y :: s)) with (mem_atomic z y || mem z s).
    now rewrite andb_orb_distrib_r.
Qed.

Lemma sorted_in_nonempty lo hi i x :
  sorted_in lo hi i -> In x i -> lo <= lower x /\ lower x < upper x /\ upper x <= hi.
Proof.
  revert lo. induction i as [|y r IH]; intros lo Hs Hin; [destruct Hin|].
  destruct Hs as (H1 & H2 & H3 & H4). destruct Hin as [->|Hin]; [lia|].
  specialize (IH _ H4 Hin). lia.
Qed.

Lemma mem_sorted_in_bounds lo hi i z :
  sorted_in lo hi i -> mem z i = true -> lo <= z < hi.
Proof.
  intros Hs Hm. unfold mem in Hm. apply existsb_exists in Hm.
  destruct Hm as (x & Hin & Hx).
  destruct (sorted_in_nonempty _ _ _ _ Hs Hin) as (H1 & H2 & H3).
  unfold mem_atomic in Hx. apply andb_true_iff in Hx. destruct Hx as [Ha Hb].
  apply Z.leb_le in Ha. apply Z.ltb_lt in Hb. lia.
Qed.

(** *** Union *)

Lemma mem_insert z a lo hi i :
  lower a < upper a -> sorted_in lo hi i ->
  mem z (insert a i) = mem_atomic z a || mem z i.
Proof.
  revert a lo. induction i as [|x r IH]; intros a lo Ha Hs; [reflexivity|].
  destruct Hs as (H1 & H2 & H3 & H4). cbn [insert].
  destruct (Z.ltb_spec (upper a) (lower x)); [reflexivity|].
  destruct (Z.ltb_spec (upper x) (lower a)).
  - change (mem z (x :: insert a r)) with (mem_atomic z x || mem z (insert a r)).
    rewrite (IH a (upper x)) by auto.
    change (mem z (x :: r)) with (mem_atomic z x || mem z r).
    destruct (mem_atomic z x), (mem_atomic z a); reflexivity.
  - rewrite (IH _ (upper x)) by (cbn; auto; lia).
    change (mem z (x :: r)) with (mem_atomic z x || mem z r).
    rewrite orb_assoc. f_equal. unfold mem_atomic; cbn.
    destruct (Z.leb_spec (lower x) z), (Z.leb_spec (lower a) z),
      (Z.ltb_spec z (upper x)), (Z.ltb_spec z (upper a)),
      (Z.leb_spec (Z.min (lower a) (lower x)) z),
      (Z.ltb_spec z (Z.max (upper a) (upper x))); cbn; auto; lia.
Qed.

Lemma sorted_in_insert a lo hi i :
  lower a < upper a -> sorted_in lo hi i ->
  sorted_in (Z.min lo (lower a)) (Z.max hi (upper a)) (insert a i).
Proof.
  revert a lo. induction i as [|x r IH]; intros a lo Ha Hs.
  - cbn. lia.
  - destruct Hs as (H1 & H2 & H3 & H4). cbn [insert].
    destruct (Z.ltb_spec (upper a) (lower x)).
    + cbn. repeat split; try lia.
      eapply sorted_in_weaken; eauto; lia.
    + destruct (Z.ltb_spec (upper x) (lower a)).
      * cbn. repeat split; try lia.
        eapply sorted_in_weaken; [apply (IH a (upper x)); auto| |]; lia.
      * eapply sorted_in_weaken; [apply (IH _ (upper x)); cbn; auto; lia| |]; cbn; lia.
Qed.

Lemma union_spec lo hi a b :
  sorted_in lo hi a -> sorted_in lo hi b ->
  sorted_in lo hi (union a b) /\ forall z, mem z (union a b) = mem z a || mem z b.
Proof.
  intros Ha. revert lo Ha. unfold union.
  induction b as [|y s IH]; intros lo Ha Hb.
  - cbn. split; auto. intros z. now rewrite orb_false_r.
  - destruct Hb as (H1 & H2 & H3 & H4). cbn [fold_right].
    assert (Hs : sorted_in lo hi s) by (eapply sorted_in_weaken; eauto; lia).
    destruct (IH lo Ha Hs) as [IHs IHm]. split.
    + eapply sorted_in_weaken; [apply sorted_in_insert; eauto| |]; lia.
    + intros z. rewrite (mem_insert z y lo hi) by auto. rewrite IHm.
      change (mem z (y :: s)) with (mem_atomic z y || mem z s).
      destruct (mem_atomic z y), (mem z a), (mem z s); reflexivity.
Qed.

(** *** Intersection *)

Lemma sorted_in_flat_map (f : Atomic -> Interval) lo hi i :
  (forall x, In x i -> sorted_in (lower x) (upper x) (f x)) ->
  sorted_in lo hi i -> sorted_in lo hi (flat_map f i).
Proof.
  revert lo. induction i as [|x r IH]; intros lo Hf Hs; [exact I|].
  destruct Hs as (H1 & H2 & H3 & H4). cbn [flat_map].
  apply (sorted_in_app lo (upper x) hi); try lia.
  - eapply sorted_in_weaken; [apply Hf; now left| |]; lia.
  - apply IH; auto. intros y Hy. apply Hf. now right.
Qed.

Lemma sorted_from_weaken lo lo' i : sorted_from lo i -> lo' <= lo -> sorted_from lo' i.
Proof.
  destruct i as [|x r]; cbn; auto. intros (H1 & H2 & H3) Hle. repeat split; auto; lia.
Qed.

Lemma sorted_from_app lo mid a b :
  sorted_from lo a -> Forall (fun y => upper y <= mid) a -> sorted_from mid b ->
  lo <= mid -> sorted_from lo (a ++ b).
Proof.
  revert lo. induction a as [|x r IH]; intros lo Ha Hu Hb Hle; cbn [app].
  - eapply sorted_from_weaken; eauto.
  - destruct Ha as (H1 & H2 & H3). inversion Hu; subst. cbn. repeat split; auto.
Qed.

Lemma sorted_in_intro lo hi i :
  sorted_from lo i -> Forall (fun y => upper y <= hi) i -> sorted_in lo hi i.
Proof.
  revert lo. induction i as [|x r IH]; intros lo Hs Hu; [exact I|].
  destruct Hs as (H1 & H2 & H3). inversion Hu; subst. cbn. repeat split; auto.
Qed.

Lemma inter_atomic_pieces x lo' hi' b :
  sorted_in lo' hi' b ->
  sorted_from (Z.max (lower x) lo') (flat_map (inter_atomic x) b)
  /\ Forall (fun y => upper y <= upper x) (flat_map (inter_atomic x) b).
Proof.
  revert lo'. induction b as [|y s IH]; intros lo' Hb; [split; [exact I | constructor]|].
  destruct Hb as (H1 & H2 & H3 & H4). destruct (IH _ H4) as [IHs IHu].
  cbn [flat_map].
  assert (Hp : sorted_from (Z.max (lower x) lo') (inter_atomic x y)
               /\ Forall (fun w => upper w <= Z.min (upper x) (upper y)) (inter_atomic x y)).
  { unfold inter_atomic, closedopen.
    destruct (Z.ltb_spec (Z.max (lower x) (lower y)) (Z.min (upper x) (upper y))).
    - split; [cbn; lia | repeat constructor; cbn; lia].
    - split; [exact I | constructor]. }
  destruct Hp as [Hp1 Hp2]. split.
  - apply (sorted_from_app _ (Z.max (lower x) (upper y))); auto; try lia.
    eapply Forall_impl; [exact Hp2|]. cbn. intros w Hw. lia.
  - apply Forall_app. split; auto.
    eapply Forall_impl; [exact Hp2|]. cbn. intros w Hw. lia.
Qed.

Lemma sorted_in_inter lo hi lo' hi' a b :
  sorted_in lo hi a -> sorted_in lo' hi' b -> sorted_in lo hi (inter a b).
Proof.
  intros Ha Hb. unfold inter. apply sorted_in_flat_map; auto.
  intros x Hx. destruct (inter_atomic_pieces x _ _ _ Hb) as [Hs Hu].
  apply sorted_in_intro; auto. eapply sorted_from_weaken; eauto. lia.
Qed.

(** *** Difference *)




(** *** Counting the points of an interval *)

Lemma count_from_ext f g lo n :
  (forall z, lo <= z < lo + Z.of_nat n -> f z = g z) ->
  count_from f lo n = count_from g lo n.
Proof.
  revert lo. induction n as [|n IH]; intros lo H; [reflexivity|].
  cbn [count_from]. rewrite (H lo) by lia. f_equal. apply IH. intros z Hz. apply H. lia.
Qed.

Lemma count_from_app f lo n m :
  count_from f lo (n + m) = count_from f lo n + count_from f (lo + Z.of_nat n) m.
Proof.
  revert lo. induction n as [|n IH]; intros lo.
  - cbn [Nat.add count_from]. rewrite Z.add_0_l. f_equal. cbn. lia.
  - cbn [Nat.add count_from]. rewrite IH.
    replace (lo + 1 + Z.of_nat n) with (lo + Z.of_nat (S n)) by lia. lia.
Qed.

Lemma count_from_le f g lo n :
  (forall z, lo <= z < lo + Z.of_nat n -> f z = true -> g z = true) ->
  count_from f lo n <= count_from g lo n.
Proof.
  revert lo. induction n as [|n IH]; intros lo H; [reflexivity|].
  cbn [count_from]. specialize (IH (lo + 1)).
  assert (Hlo : f lo = true -> g lo = true) by (apply H; lia).
  assert (count_from f (lo + 1) n <= count_from g (lo + 1) n)
    by (apply IH; intros z Hz; apply H; lia).
  destruct (f lo), (g lo); cbn; try lia; discriminate (Hlo eq_refl).
Qed.

Lemma count_from_nonneg f lo n : 0 <= count_from f lo n.
Proof.
  revert lo. induction n as [|n IH]; intros lo; cbn [count_from]; [lia|].
  specialize (IH (lo + 1)). destruct (f lo); cbn; lia.
Qed.

Lemma count_from_true f lo n :
  (forall z, lo <= z < lo + Z.of_nat n -> f z = true) -> count_from f lo n = Z.of_nat n.
Proof.
  revert lo. induction n as [|n IH]; intros lo H; [reflexivity|].
  cbn [count_from]. rewrite (H lo) by lia. rewrite IH; [cbn; lia|].
  intros z Hz. apply H. lia.
Qed.

Lemma count_from_false f lo n :
  (forall z, lo <= z < lo + Z.of_nat n -> f z = false) -> count_from f lo n = 0.
Proof.
  revert lo. induction n as [|n IH]; intros lo H; [reflexivity|].
  cbn [count_from]. rewrite (H lo) by lia. rewrite IH; [reflexivity|].
  intros z Hz. apply H. lia.
Qed.


Lemma measure_ext f g lo hi :
  (forall z, lo <= z < hi -> f z = g z) -> measure f lo hi = measure g lo hi.
Proof. intros H. apply count_from_ext. intros z Hz. apply H. lia. Qed.

Lemma measure_cut f lo mid hi :
  lo <= mid <= hi -> measure f lo hi = measure f lo mid + measure f mid hi.
Proof.
  intros H. unfold measure.
  replace (Z.to_nat (hi - lo)) with (Z.to_nat (mid - lo) + Z.to_nat (hi - mid))%nat by lia.
  rewrite count_from_app. do 2 f_equal. lia.
Qed.

Lemma measure_le f g lo hi :
  (forall z, lo <= z < hi -> f z = true -> g z = true) ->
  measure f lo hi <= measure g lo hi.
Proof. intros H. apply count_from_le. intros z Hz. apply H. lia. Qed.

Lemma measure_nonneg f lo hi : 0 <= measure f lo hi.
Proof. apply count_from_nonneg. Qed.

Lemma measure_true f lo hi :
  lo <= hi -> (forall z, lo <= z < hi -> f z = true) -> measure f lo hi = hi - lo.
Proof.
  intros Hle H. unfold measure. rewrite count_from_true; [lia|].
  intros z Hz. apply H. lia.
Qed.

Lemma measure_false f lo hi :
  (forall z, lo <= z < hi -> f z = false) -> measure f lo hi = 0.
Proof. intros H. apply count_from_false. intros z Hz. apply H. lia. Qed.


Lemma mem_below lo hi i z : sorted_in lo hi i -> z < lo -> mem z i = false.
Proof.
  intros Hs Hz. destruct (mem z i) eqn:E; auto.
  apply (mem_sorted_in_bounds _ _ _ _ Hs) in E. lia.
Qed.

(** The length of an interval is the number of its integer points. *)
Lemma length_measure lo hi i :
  sorted_in lo hi i -> lo <= hi ->
  get_interval_length i = measure (fun z => mem z i) lo hi.
Proof.
  revert lo. induction i as [|x r IH]; intros lo Hs Hle.
  - cbn. symmetry. apply measure_false. reflexivity.
  - destruct Hs as (H1 & H2 & H3 & H4).
    unfold get_interval_length. cbn [List.filter].
    destruct (Z.leb_spec (upper x) (lower x)); [lia|]. cbn [negb map fold_right].
    fold (get_interval_length r). rewrite (IH (upper x)) by (auto; lia).
    rewrite (measure_cut _ lo (lower x) hi) by lia.
    rewrite (measure_cut _ (lower x) (upper x) hi) by lia.
    rewrite (measure_false _ lo (lower x)), (measure_true _ (lower x) (upper x)); try lia.
    + rewrite Z.add_0_l. f_equal. apply measure_ext. intros z Hz.
      change (mem z (x :: r)) with (mem_atomic z x || mem z r).
      unfold mem_atomic. destruct (Z.ltb_spec z (upper x)); [lia|].
      now rewrite andb_false_r.
    + intros z Hz. change (mem z (x :: r)) with (mem_atomic z x || mem z r).
      unfold mem_atomic.
      destruct (Z.leb_spec (lower x) z), (Z.ltb_spec z (upper x)); try lia; reflexivity.
    + intros z Hz. change (mem z (x :: r)) with (mem_atomic z x || mem z r).
      rewrite (mem_below _ _ _ _ H4) by lia.
      unfold mem_atomic. destruct (Z.leb_spec (lower x) z); [lia | reflexivity].
Qed.

Lemma length_nonneg i : 0 <= get_interval_length i.
Proof.
  unfold get_interval_length. induction i as [|x r IH]; cbn; [lia|].
  destruct (Z.leb_spec (upper x) (lower x)); cbn; lia.
Qed.

(** A part is not longer than the whole. *)
Lemma length_subset lo hi a b :
  sorted_in lo hi a -> sorted_in lo hi b -> lo <= hi ->
  (forall z, mem z a = true -> mem z b = true) ->
  get_interval_length a <= get_interval_length b.
Proof.
  intros Ha Hb Hle Hsub.
  rewrite (length_measure lo hi a), (length_measure lo hi b) by auto.
  apply measure_le. auto.
Qed.


End portion_facts.

(** ** Facts on the loops over the overlaps *)

Import portion_facts.

Lemma seq_snoc (k n : nat) : seq k (S n) = seq k n ++ [(k + n)%nat].
Proof. rewrite <- Nat.add_1_r. rewrite seq_app. reflexivity. Qed.

Lemma fold_left_ext_in {A B : Type} (f g : B -> A -> B) (l : list A) (b : B) :
  (forall acc x, In x l -> f acc x = g acc x) -> fold_left f l b = fold_left g l b.
Proof.
  revert b. induction l as [|x r IH]; intros b H; [reflexivity|].
  cbn [fold_left]. rewrite (H b x) by now left.
  apply IH. intros acc y Hy. apply H. now right.
Qed.

(** A loop over [range(len(l))] that reads [l[i]] is a loop over [l]. *)
Lemma fold_left_range {A B : Type} (f : B -> A -> B) (l : list A) (d : A) (b : B) :
  fold_left (fun acc i => f acc (nth i l d)) (range (length l)) b = fold_left f l b.
Proof.
  unfold range. revert b. induction l as [|x r IH] using rev_ind; intros b; [reflexivity|].
  rewrite length_app, Nat.add_comm. cbn [length Nat.add]. rewrite seq_snoc.
  rewrite !fold_left_app. cbn [fold_left Nat.add].
  rewrite app_nth2, Nat.sub_diag by lia. cbn [nth]. f_equal.
  rewrite <- IH. apply fold_left_ext_in.
  intros acc i Hi. apply in_seq in Hi. rewrite app_nth1 by lia. reflexivity.
Qed.

Lemma overlap_at_overlaps annotation match_ m a :
  (m < length match_)%nat -> (a < length annotation)%nat ->
  overlap_at (overlaps annotation match_) m a
  = overlap (nth a annotation no_segment) (nth m match_ no_segment).
Proof.
  intros Hm Ha. unfold overlap_at, overlaps.
  rewrite (nth_indep _ [] (map (fun a => overlap a no_segment) annotation))
    by (rewrite length_map; exact Hm).
  rewrite (map_nth (fun m => map (fun a => overlap a m) annotation)).
  rewrite (nth_indep _ (empty, empty) (overlap no_segment (nth m match_ no_segment)))
    by (rewrite length_map; exact Ha).
  apply (map_nth (fun a => overlap a (nth m match_ no_segment))).
Qed.

Lemma unions_of_annotation_eq annotation match_ a :
  (a < length annotation)%nat ->
  unions_of_annotation (overlaps annotation match_) (length match_) a
  = annotation_unions (nth a annotation no_segment) match_.
Proof.
  intros Ha. unfold unions_of_annotation, annotation_unions.
  rewrite <- (fold_left_range _ match_ no_segment).
  apply fold_left_ext_in. intros u m Hm. apply in_seq in Hm.
  rewrite overlap_at_overlaps by lia. reflexivity.
Qed.

Lemma unions_of_match_eq annotation match_ m :
  (m < length match_)%nat ->
  unions_of_match (overlaps annotation match_) (length annotation) m
  = match_unions annotation (nth m match_ no_segment).
Proof.
  intros Hm. unfold unions_of_match, match_unions.
  rewrite <- (fold_left_range (fun u a => add_overlap (overlap a _) u) annotation no_segment).
  apply fold_left_ext_in. intros u a Ha. apply in_seq in Ha.
  rewrite overlap_at_overlaps by lia. reflexivity.
Qed.

Lemma add_overlap_inside lo hi A B o u :
  inside lo hi A B o -> inside lo hi A B u -> inside lo hi A B (add_overlap o u).
Proof.
  intros (Ho1 & Ho2 & Ho3 & Ho4) (Hu1 & Hu2 & Hu3 & Hu4). unfold add_overlap.
  destruct (negb (is_empty (fst o)) && negb (is_empty (snd o))).
  - destruct (union_spec lo hi (fst u) (fst o) Hu1 Ho1) as [Hs1 Hm1].
    destruct (union_spec lo hi (snd u) (snd o) Hu2 Ho2) as [Hs2 Hm2].
    repeat split; cbn [fst snd]; auto.
    + intros z. rewrite Hm1. intros H. apply orb_true_iff in H. destruct H; auto.
    + intros z. rewrite Hm2. intros H. apply orb_true_iff in H. destruct H; auto.
  - repeat split; auto.
Qed.

Lemma fold_add_overlap_inside {X : Type} (g : X -> Interval * Interval) lo hi A B xs u :
  inside lo hi A B u -> (forall x, In x xs -> inside lo hi A B (g x)) ->
  inside lo hi A B (fold_left (fun u x => add_overlap (g x) u) xs u).
Proof.
  revert u. induction xs as [|x r IH]; intros u Hu Hg; [exact Hu|].
  cbn [fold_left]. apply IH.
  - apply add_overlap_inside; auto. apply Hg. now left.
  - intros y Hy. apply Hg. now right.
Qed.

Lemma inside_empty lo hi A B : inside lo hi A B (empty, empty).
Proof. repeat split; cbn; auto; discriminate. Qed.

Lemma overlap_inside_annotation lo hi a m :
  in_window lo hi a -> valid_segment m ->
  inside lo hi (reference_interval a) (query_interval a) (overlap a m).
Proof.
  intros [Ha1 Ha2] [Hm1 Hm2].
  destruct (wf_sorted_in _ Hm1) as (l1 & h1 & _ & Hs1).
  destruct (wf_sorted_in _ Hm2) as (l2 & h2 & _ & Hs2).
  unfold overlap. repeat split; cbn [fst snd].
  - eapply sorted_in_inter; eauto.
  - eapply sorted_in_inter; eauto.
  - intros z. rewrite mem_inter. intros H. apply andb_true_iff in H. tauto.
  - intros z. rewrite mem_inter. intros H. apply andb_true_iff in H. tauto.
Qed.

Lemma overlap_inside_match lo hi a m :
  in_window lo hi a -> valid_segment m ->
  inside lo hi (reference_interval m) (query_interval m) (overlap a m).
Proof.
  intros [Ha1 Ha2] [Hm1 Hm2].
  destruct (wf_sorted_in _ Hm1) as (l1 & h1 & _ & Hs1).
  destruct (wf_sorted_in _ Hm2) as (l2 & h2 & _ & Hs2).
  unfold overlap. repeat split; cbn [fst snd].
  - eapply sorted_in_inter; eauto.
  - eapply sorted_in_inter; eauto.
  - intros z. rewrite mem_inter. intros H. apply andb_true_iff in H. tauto.
  - intros z. rewrite mem_inter. intros H. apply andb_true_iff in H. tauto.
Qed.

Lemma in_window_valid lo hi s : in_window lo hi s -> valid_segment s.
Proof. intros [H1 H2]. split; eapply sorted_in_wf; eauto. Qed.

Lemma annotation_unions_inside lo hi a match_ :
  in_window lo hi a -> Forall valid_segment match_ ->
  inside lo hi (reference_interval a) (query_interval a) (annotation_unions a match_).
Proof.
  intros Ha Hm. unfold annotation_unions. apply fold_add_overlap_inside.
  - apply inside_empty.
  - intros m Hin. apply overlap_inside_annotation; auto.
    rewrite List.Forall_forall in Hm. auto.
Qed.

Lemma match_unions_inside lo hi annotation m :
  Forall (in_window lo hi) annotation -> valid_segment m ->
  inside lo hi (reference_interval m) (query_interval m) (match_unions annotation m).
Proof.
  intros Ha Hm. unfold match_unions.
  apply (fold_add_overlap_inside (fun a => overlap a m)).
  - apply inside_empty.
  - intros a Hin. apply overlap_inside_match; auto.
    rewrite List.Forall_forall in Ha. auto.
Qed.

(** Valid segments fit in one window. *)
Lemma common_window (l : list Segment) :
  Forall valid_segment l -> exists lo hi, lo <= hi /\ Forall (in_window lo hi) l.
Proof.
  induction 1 as [|s r [Hs1 Hs2] Hr (lo & hi & Hle & IH)].
  - exists 0, 0. split; [lia | constructor].
  - destruct (wf_sorted_in _ Hs1) as (l1 & h1 & Hle1 & G1).
    destruct (wf_sorted_in _ Hs2) as (l2 & h2 & Hle2 & G2).
    exists (Z.min lo (Z.min l1 l2)), (Z.max hi (Z.max h1 h2)). split; [lia|].
    constructor.
    + split; eapply sorted_in_weaken; eauto; lia.
    + eapply Forall_impl; [exact IH|]. intros x [X1 X2].
      split; eapply sorted_in_weaken; eauto; lia.
Qed.

(** ** The bounding-box scores *)

Lemma map_range_nth {A B : Type} (g : A -> B) (l : list A) (d : A) :
  map (fun i => g (nth i l d)) (range (length l)) = map g l.
Proof.
  unfold range. induction l as [|x r IH]; [reflexivity|].
  cbn [length seq map nth]. f_equal.
  rewrite <- seq_shift, map_map. exact IH.
Qed.

Lemma overlap_lengths_sums (U : nat -> Interval * Interval) idx :
  BoundingBoxSegmentEvaluator.overlap_lengths U idx
  = (Zsum (map (fun i => get_interval_length (fst (U i))) idx),
     Zsum (map (fun i => get_interval_length (snd (U i))) idx)).
Proof.
  unfold BoundingBoxSegmentEvaluator.overlap_lengths.
  assert (H : forall acc,
    fold_left (fun acc i => (fst acc + get_interval_length (fst (U i)),
                             snd acc + get_interval_length (snd (U i)))) idx acc
    = (fst acc + Zsum (map (fun i => get_interval_length (fst (U i))) idx),
       snd acc + Zsum (map (fun i => get_interval_length (snd (U i))) idx))).
  { induction idx as [|i r IH]; intros [x y]; cbn [fold_left map Zsum fold_right fst snd].
    - f_equal; lia.
    - rewrite IH. cbn [fst snd]. fold (Zsum (map (fun i => get_interval_length (fst (U i))) r)).
      fold (Zsum (map (fun i => get_interval_length (snd (U i))) r)). f_equal; lia. }
  rewrite H. reflexivity.
Qed.

Lemma Zsum_map_ext_in {A : Type} (f g : A -> Z) l :
  (forall x, In x l -> f x = g x) -> Zsum (map f l) = Zsum (map g l).
Proof.
  induction l as [|x r IH]; intros H; [reflexivity|].
  cbn. rewrite (H x) by now left. f_equal. apply IH. intros y Hy. apply H. now right.
Qed.

Lemma Zsum_map_bounds {A : Type} (f g : A -> Z) l :
  (forall x, In x l -> 0 <= f x <= g x) -> 0 <= Zsum (map f l) <= Zsum (map g l).
Proof.
  induction l as [|x r IH]; intros H; cbn; [lia|].
  assert (0 <= f x <= g x) by (apply H; now left).
  assert (0 <= Zsum (map f r) <= Zsum (map g r)) by (apply IH; intros y Hy; apply H; now right).
  unfold Zsum in *. lia.
Qed.

Lemma Zsum_map_zero {A : Type} (f : A -> Z) l :
  (forall x, In x l -> f x = 0) -> Zsum (map f l) = 0.
Proof.
  induction l as [|x r IH]; intros H; cbn; [reflexivity|].
  rewrite (H x) by now left. rewrite Z.add_0_l. apply IH. intros y Hy. apply H. now right.
Qed.

(** The sums of the loop on the annotations, as sums over the list. *)
Lemma annotation_overlap_lengths annotation match_ :
  BoundingBoxSegmentEvaluator.overlap_lengths
    (unions_of_annotation (overlaps annotation match_) (length match_))
    (range (length annotation))
  = (Zsum (map (fun a => get_interval_length (fst (annotation_unions a match_))) annotation),
     Zsum (map (fun a => get_interval_length (snd (annotation_unions a match_))) annotation)).
Proof.
  rewrite overlap_lengths_sums.
  rewrite <- (map_range_nth (fun a => get_interval_length (fst (annotation_unions a match_)))
                annotation no_segment).
  rewrite <- (map_range_nth (fun a => get_interval_length (snd (annotation_unions a match_)))
                annotation no_segment).
  f_equal; apply Zsum_map_ext_in; intros i Hi; apply in_seq in Hi;
    rewrite unions_of_annotation_eq by lia; reflexivity.
Qed.

Lemma match_overlap_lengths annotation match_ :
  BoundingBoxSegmentEvaluator.overlap_lengths
    (unions_of_match (overlaps annotation match_) (length annotation))
    (range (length match_))
  = (Zsum (map (fun m => get_interval_length (fst (match_unions annotation m))) match_),
     Zsum (map (fun m => get_interval_length (snd (match_unions annotation m))) match_)).
Proof.
  rewrite overlap_lengths_sums.
  rewrite <- (map_range_nth (fun m => get_interval_length (fst (match_unions annotation m)))
                match_ no_segment).
  rewrite <- (map_range_nth (fun m => get_interval_length (snd (match_unions annotation m)))
                match_ no_segment).
  f_equal; apply Zsum_map_ext_in; intros i Hi; apply in_seq in Hi;
    rewrite unions_of_match_eq by lia; reflexivity.
Qed.

Lemma inside_lengths lo hi A B u :
  lo <= hi -> sorted_in lo hi A -> sorted_in lo hi B -> inside lo hi A B u ->
  0 <= get_interval_length (fst u) <= get_interval_length A
  /\ 0 <= get_interval_length (snd u) <= get_interval_length B.
Proof.
  intros Hle HA HB (H1 & H2 & H3 & H4).
  split; (split; [apply length_nonneg | eapply length_subset; eauto]).
Qed.

Lemma ratio_bounds num den otherwise :
  0 <= num <= den -> (0 <= otherwise <= 1)%Q -> (0 <= ratio num den otherwise <= 1)%Q.
Proof.
  intros Hn Ho. unfold ratio. destruct (Z.eqb_spec den 0); cbn [negb]; [exact Ho|].
  assert (Hd : (0 < inject_Z den)%Q) by (rewrite <- (Zlt_Qlt 0); lia).
  split.
  - apply Qle_shift_div_l; auto. rewrite Qmult_0_l. rewrite <- (Zle_Qle 0). lia.
  - apply Qle_shift_div_r; auto. rewrite Qmult_1_l. rewrite <- Zle_Qle. lia.
Qed.

Lemma ratio_zero den otherwise :
  (otherwise == 0)%Q -> (ratio 0 den otherwise == 0)%Q.
Proof.
  intros Ho. unfold ratio. destruct (negb (den =? 0)); auto.
  unfold Qdiv. apply Qmult_0_l.
Qed.

Lemma product_bounds (x y : Q) :
  (0 <= x <= 1)%Q -> (0 <= y <= 1)%Q -> (0 <= 1 * x * y <= 1)%Q.
Proof.
  intros [Hx0 Hx1] [Hy0 Hy1]. rewrite Qmult_1_l. split.
  - apply Qmult_le_0_compat; auto.
  - change (x * y <= 1 * 1)%Q.
    apply Qmult_le_compat_nonneg; split; auto.
Qed.

Lemma no_double_overlap_unions a match_ :
  (forall m, In m match_ -> double_overlap a m = false) ->
  annotation_unions a match_ = (empty, empty).
Proof.
  unfold annotation_unions. generalize (empty, empty) as u.
  induction match_ as [|m r IH]; intros u H; [reflexivity|].
  cbn [fold_left]. unfold add_overlap at 2.
  assert (Hm : double_overlap a m = false) by (apply H; now left).
  unfold double_overlap in Hm. rewrite Hm.
  apply IH. intros m' Hm'. apply H. now right.
Qed.

(** C5. For valid segments the recall and the precision of the
    bounding-box evaluator are between 0 and 1; the recall is 0 when no
    annotation and match overlap on both axes at once; the precision is 1
    when there is no match. *)
Theorem bounding_box_scores_in_unit_interval (annotation match_ : list Segment) :
  Forall valid_segment annotation -> Forall valid_segment match_ ->
  let recall := fst (BoundingBoxSegmentEvaluator.scores annotation match_) in
  let precision := snd (BoundingBoxSegmentEvaluator.scores annotation match_) in
  (0 <= recall <= 1)%Q /\ (0 <= precision <= 1)%Q
  /\ ((forall a m, In a annotation -> In m match_ -> double_overlap a m = false) ->
      (recall == 0)%Q)
  /\ (match_ = [] -> (precision == 1)%Q).
Proof.
  intros Ha Hm.
  destruct (common_window (annotation ++ match_)) as (lo & hi & Hle & Hw).
  { apply Forall_app. split; assumption. }
  apply Forall_app in Hw. destruct Hw as [Hwa Hwm].
  unfold BoundingBoxSegmentEvaluator.scores.
  rewrite annotation_overlap_lengths, match_overlap_lengths. cbn [fst snd].
  assert (Ba : forall a, In a annotation ->
             0 <= get_interval_length (fst (annotation_unions a match_))
               <= get_interval_length (reference_interval a)
             /\ 0 <= get_interval_length (snd (annotation_unions a match_))
                  <= get_interval_length (query_interval a)).
  { intros a Hin. rewrite List.Forall_forall in Hwa. destruct (Hwa a Hin) as [W1 W2].
    apply (inside_lengths lo hi); auto.
    apply annotation_unions_inside; [split|]; auto. }
  assert (Bm : forall m, In m match_ ->
             0 <= get_interval_length (fst (match_unions annotation m))
               <= get_interval_length (reference_interval m)
             /\ 0 <= get_interval_length (snd (match_unions annotation m))
                  <= get_interval_length (query_interval m)).
  { intros m Hin. rewrite List.Forall_forall in Hwm. destruct (Hwm m Hin) as [W1 W2].
    apply (inside_lengths lo hi); auto.
    apply match_unions_inside; auto. rewrite List.Forall_forall in Hm. apply Hm, Hin. }
  repeat split.
  - apply product_bounds; (apply ratio_bounds; [apply Zsum_map_bounds; intros a Hin; apply Ba; auto | split; [apply Qle_refl | discriminate]]).
  - apply product_bounds; (apply ratio_bounds; [apply Zsum_map_bounds; intros a Hin; apply Ba; auto | split; [apply Qle_refl | discriminate]]).
  - apply product_bounds; (apply ratio_bounds; [apply Zsum_map_bounds; intros m Hin; apply Bm; auto | split; [discriminate | apply Qle_refl]]).
  - apply product_bounds; (apply ratio_bounds; [apply Zsum_map_bounds; intros m Hin; apply Bm; auto | split; [discriminate | apply Qle_refl]]).
  - intros Hno.
    rewrite (Zsum_map_zero (fun a => get_interval_length (fst (annotation_unions a match_)))).
    + rewrite ratio_zero by reflexivity. rewrite Qmult_0_r, Qmult_0_l. reflexivity.
    + intros a Hin. rewrite no_double_overlap_unions by auto. reflexivity.
  - intros ->. cbn. reflexivity.
Qed.

(** ** The length-weighted scores of an annotation *)

Lemma Qltb_lt x y : Qltb x y = true <-> (x < y)%Q.
Proof.
  unfold Qltb. rewrite negb_true_iff. split.
  - intros H. apply Qnot_le_lt. intros Hle. apply Qle_bool_iff in Hle. congruence.
  - intros H. destruct (Qle_bool y x) eqn:E; auto.
    apply Qle_bool_iff in E. exfalso. exact (Qlt_not_le _ _ H E).
Qed.

Lemma Qltb_ge x y : Qltb x y = false <-> (y <= x)%Q.
Proof.
  unfold Qltb. rewrite negb_false_iff. apply Qle_bool_iff.
Qed.









(** ** The pass over the matches *)




(** ** The F-score and the empty accumulator *)

(** C8. For a recall and a precision that are not negative, the F-score
    is [10 R P / (9 R + P)] when [R + P > 0] and 0 otherwise, and no
    division by zero occurs; it is 1 at [(1, 1)] and 0 at [(0, P)],
    [P > 0]. *)
Theorem calculate_f_score_formula (R P : Q) :
  (0 <= R)%Q -> (0 <= P)%Q ->
  ((0 < R + P)%Q -> calculate_f_score R P = Some (10 * R * P / (9 * R + P))%Q)
  /\ (~ (0 < R + P)%Q -> calculate_f_score R P = Some 0%Q)
  /\ (exists f, calculate_f_score 1 1 = Some f /\ (f == 1)%Q)
  /\ ((0 < P)%Q -> exists f, calculate_f_score 0 P = Some f /\ (f == 0)%Q).
Proof.
  intros HR HP.
  assert (Hpos : forall r p : Q, (0 <= r)%Q -> (0 <= p)%Q -> (0 < r + p)%Q ->
            calculate_f_score r p = Some (10 * r * p / (9 * r + p))%Q).
  { intros r p Hr Hp Hrp. unfold calculate_f_score.
    apply Qltb_lt in Hrp. rewrite Hrp. unfold truediv.
    destruct (Qeq_bool (9 * r + p) 0) eqn:E; [|reflexivity].
    apply Qeq_bool_iff in E. apply Qltb_lt in Hrp. exfalso.
    assert (H9 : (r + p <= 9 * r + p)%Q).
    { apply Qplus_le_l. rewrite <- (Qmult_1_l r) at 1.
      apply Qmult_le_compat_r; [discriminate | exact Hr]. }
    rewrite E in H9. exact (Qlt_not_le _ _ Hrp H9). }
  split; [apply Hpos; auto|]. split; [|split].
  - intros Hn. unfold calculate_f_score.
    destruct (Qltb 0 (R + P)) eqn:E; [|reflexivity].
    apply Qltb_lt in E. contradiction.
  - eexists. split; [reflexivity|]. reflexivity.
  - intros HP0. eexists. split.
    + apply Hpos; [apply Qle_refl | exact HP |]. now rewrite Qplus_0_l.
    + unfold Qdiv. rewrite Qmult_0_r, !Qmult_0_l. reflexivity.
Qed.

(** Without the sign condition the guard of [calculate_f_score] does not
    protect the division. *)
Lemma calculate_f_score_negative_recall : calculate_f_score (-1) 9 = None.
Proof. reflexivity. Qed.

(** C7. An accumulator that received no [add] reports the recall 0, the
    precision 1 and the F-score 0, and raises nothing. *)
Theorem empty_accumulator_get (self : RecallPrecisionResults.t) :
  RecallPrecisionResults._recalls self = [] ->
  RecallPrecisionResults._precisions self = [] ->
  RecallPrecisionResults.get self = Some (0, 1, 0)%Q.
Proof.
  intros Hr Hp. unfold RecallPrecisionResults.get. rewrite Hr, Hp. reflexivity.
Qed.

Lemma new_accumulator_get (h : gmap loc (gset string)) :
  RecallPrecisionResults.get (fst (RecallPrecisionResults.__init__ h)) = Some (0, 1, 0)%Q
  /\ PositivesNegativesResults.get (fst (PositivesNegativesResults.__init__ h))
     = Some (0%Q, 1%Q, 0%Q, 0, 0, 0, 0).
Proof. split; reflexivity. Qed.

(** ** Integer fields *)












(** An integer stored as an integer is not used. *)
Lemma get_item_as_int_of_int :
  get_item_as_int {[ "tempo" := VInt 120 ]} "tempo" 100 = 100
  /\ get_item_as_int {[ "tempo" := VStr "120" ]} "tempo" 100 = 120
  /\ get_item_as_int {[ "tempo" := VStr "-007" ]} "tempo" 100 = -7
  /\ get_item_as_int {[ "tempo" := VStr "1.5" ]} "tempo" 100 = 100
  /\ get_item_as_int {[ "tempo" := VStr "" ]} "tempo" 100 = 100.
Proof. repeat split; reflexivity. Qed.

(** The newline that may end the string. *)
Lemma get_item_as_int_final_newline :
  get_item_as_int {[ "tempo" := VStr (String "9" (String "0" (String LF ""))) ]} "tempo" 100
  = 90.
Proof. reflexivity. Qed.

(** ** The bands of the tag classifier *)

(** Powers of rationals, by the base. *)
Lemma Qpower_succ (a : Q) (k : positive) :
  (a ^ Z.pos (Pos.succ k) == a ^ Z.pos k * a)%Q.
Proof.
  rewrite Pos2Z.inj_succ. unfold Z.succ. rewrite Qpower_plus' by lia.
  now rewrite Qpower_1_r.
Qed.

Lemma Qpower_base_le (a b : Q) (k : positive) :
  (0 <= a)%Q -> (a <= b)%Q -> (a ^ Z.pos k <= b ^ Z.pos k)%Q.
Proof.
  intros Ha Hab. induction k as [|k IH] using Pos.peano_ind.
  - now rewrite !Qpower_1_r.
  - rewrite !Qpower_succ. apply Qmult_le_compat_nonneg; split; auto.
    apply Qpower_0_le. exact Ha.
Qed.

Lemma Qpower_base_lt (a b : Q) (k : positive) :
  (0 <= a)%Q -> (a < b)%Q -> (a ^ Z.pos k < b ^ Z.pos k)%Q.
Proof.
  intros Ha Hab. induction k as [|k IH] using Pos.peano_ind.
  - now rewrite !Qpower_1_r.
  - rewrite !Qpower_succ.
    apply Qle_lt_trans with (b ^ Z.pos k * a)%Q.
    + apply Qmult_le_compat_r; [apply Qlt_le_weak; exact IH | exact Ha].
    + rewrite !(Qmult_comm (b ^ Z.pos k)). apply Qmult_lt_compat_r; [|exact Hab].
      apply Qpower_0_lt. eapply Qle_lt_trans; eauto.
Qed.

Lemma Qpower_base_le_inv (a b : Q) (k : positive) :
  (0 <= b)%Q -> (a ^ Z.pos k <= b ^ Z.pos k)%Q -> (a <= b)%Q.
Proof.
  intros Hb H. apply Qnot_lt_le. intros Hlt.
  apply (Qlt_not_le _ _ (Qpower_base_lt b a k Hb Hlt)). exact H.
Qed.

Lemma Qpower_base_lt_inv (a b : Q) (k : positive) :
  (0 <= b)%Q -> (a ^ Z.pos k < b ^ Z.pos k)%Q -> (a < b)%Q.
Proof.
  intros Hb H. apply Qnot_le_lt. intros Hle.
  apply (Qlt_not_le _ _ H). now apply Qpower_base_le.
Qed.

Lemma two_ge_one : (1 <= 2)%Q.
Proof. discriminate. Qed.

(** From a comparison of a small power of the scale with a power of 2 to
    the comparison of its power 1200: [2 ^ u <= s ^ v] gives
    [2 ^ n <= s ^ N] when [n / N <= u / v]. *)
Lemma power_of_two_below (s : Q) (u n : Z) (v N : positive) :
  (0 < s)%Q -> (2 ^ u <= s ^ Z.pos v)%Q -> n * Z.pos v <= u * Z.pos N ->
  (2 ^ n <= s ^ Z.pos N)%Q.
Proof.
  intros Hs Hb Hc. apply (Qpower_base_le_inv _ _ v).
  - apply Qpower_0_le. now apply Qlt_le_weak.
  - rewrite <- !Qpower_mult.
    apply Qle_trans with (2 ^ (u * Z.pos N))%Q.
    + apply Qpower_le_compat_l; [exact Hc | exact two_ge_one].
    + rewrite (Z.mul_comm (Z.pos N)), !Qpower_mult.
      apply Qpower_base_le; [|exact Hb]. apply Qpower_0_le. discriminate.
Qed.

Lemma power_of_two_strictly_below (s : Q) (u n : Z) (v N : positive) :
  (0 < s)%Q -> (2 ^ u < s ^ Z.pos v)%Q -> n * Z.pos v <= u * Z.pos N ->
  (2 ^ n < s ^ Z.pos N)%Q.
Proof.
  intros Hs Hb Hc. apply (Qpower_base_lt_inv _ _ v).
  - apply Qpower_0_le. now apply Qlt_le_weak.
  - rewrite <- !Qpower_mult.
    apply Qle_lt_trans with (2 ^ (u * Z.pos N))%Q.
    + apply Qpower_le_compat_l; [exact Hc | exact two_ge_one].
    + rewrite (Z.mul_comm (Z.pos N)), !Qpower_mult.
      apply Qpower_base_lt; [|exact Hb]. apply Qpower_0_le. discriminate.
Qed.

Lemma power_of_two_above (s : Q) (u n : Z) (v N : positive) :
  (0 < s)%Q -> (s ^ Z.pos v <= 2 ^ u)%Q -> u * Z.pos N <= n * Z.pos v ->
  (s ^ Z.pos N <= 2 ^ n)%Q.
Proof.
  intros Hs Hb Hc. apply (Qpower_base_le_inv _ _ v).
  - apply Qpower_0_le. discriminate.
  - rewrite <- !Qpower_mult.
    apply Qle_trans with (2 ^ (u * Z.pos N))%Q.
    + rewrite (Z.mul_comm (Z.pos N)), !Qpower_mult.
      apply Qpower_base_le; [|exact Hb]. apply Qpower_0_le. now apply Qlt_le_weak.
    + apply Qpower_le_compat_l; [exact Hc | exact two_ge_one].
Qed.

Lemma power_of_two_strictly_above (s : Q) (u n : Z) (v N : positive) :
  (0 < s)%Q -> (s ^ Z.pos v < 2 ^ u)%Q -> u * Z.pos N <= n * Z.pos v ->
  (s ^ Z.pos N < 2 ^ n)%Q.
Proof.
  intros Hs Hb Hc. apply (Qpower_base_lt_inv _ _ v).
  - apply Qpower_0_le. discriminate.
  - rewrite <- !Qpower_mult.
    apply Qlt_le_trans with (2 ^ (u * Z.pos N))%Q.
    + rewrite (Z.mul_comm (Z.pos N)), !Qpower_mult.
      apply Qpower_base_lt; [|exact Hb]. apply Qpower_0_le. now apply Qlt_le_weak.
    + apply Qpower_le_compat_l; [exact Hc | exact two_ge_one].
Qed.

Ltac small_power := vm_compute; solve [reflexivity | discriminate].

Lemma threshold_bounds :
  is_ceil_of_cents THRESHOLD_SMALL MIN_PITCH_SMALL
  /\ is_floor_of_cents (1 / THRESHOLD_SMALL) MAX_PITCH_SMALL
  /\ is_ceil_of_cents THRESHOLD_MEDIUM MIN_PITCH_MEDIUM
  /\ is_floor_of_cents (1 / THRESHOLD_MEDIUM) MAX_PITCH_MEDIUM
  /\ is_ceil_of (tempo_scale_to_per_cent THRESHOLD_SMALL) MIN_TEMPO_SMALL
  /\ is_floor_of (tempo_scale_to_per_cent (1 / THRESHOLD_SMALL)) MAX_TEMPO_SMALL
  /\ is_ceil_of (tempo_scale_to_per_cent THRESHOLD_MEDIUM) MIN_TEMPO_MEDIUM
  /\ is_floor_of (tempo_scale_to_per_cent (1 / THRESHOLD_MEDIUM)) MAX_TEMPO_MEDIUM.
Proof.
  unfold is_ceil_of_cents, is_floor_of_cents, is_ceil_of, is_floor_of.
  split; [split|split; [split|split; [split|split; [split|]]]].
  - apply (power_of_two_strictly_below _ (-21) _ 200); small_power.
  - apply (power_of_two_above _ (-5) _ 48); small_power.
  - apply (power_of_two_below _ 5 _ 48); small_power.
  - apply (power_of_two_strictly_above _ 21 _ 200); small_power.
  - apply (power_of_two_strictly_below _ (-16) _ 47); small_power.
  - apply (power_of_two_above _ (-17) _ 50); small_power.
  - apply (power_of_two_below _ 17 _ 50); small_power.
  - apply (power_of_two_strictly_above _ 16 _ 47); small_power.
  - repeat match goal with |- _ /\ _ => split end; small_power.
Qed.

Lemma threshold_values :
  MIN_PITCH_SMALL = -125 /\ MAX_PITCH_SMALL = 125
  /\ MIN_PITCH_MEDIUM = -408 /\ MAX_PITCH_MEDIUM = 408
  /\ MIN_TEMPO_SMALL = 93 /\ MAX_TEMPO_SMALL = 107
  /\ MIN_TEMPO_MEDIUM = 79 /\ MAX_TEMPO_MEDIUM = 126.
Proof.
  repeat match goal with |- _ /\ _ => split end; vm_compute; reflexivity.
Qed.

Ltac case_ifs :=
  repeat match goal with
         | |- context [if ?b then _ else _] => destruct b
         end.

Lemma filter_tempo_pitch_tags tempo pitch :
  List.filter band_tag (tempo_pitch_tags tempo pitch) = tempo_pitch_tags tempo pitch.
Proof. unfold tempo_pitch_tags. case_ifs; reflexivity. Qed.

Lemma filter_flag_tag_echo d field :
  List.filter band_tag (flag_tag d field "echo") = []
  /\ List.filter band_tag (flag_tag d field "high-pass") = []
  /\ List.filter band_tag (flag_tag d field "low-pass") = []
  /\ List.filter band_tag (flag_tag d field "reverb") = [].
Proof. unfold flag_tag. repeat split; case_ifs; reflexivity. Qed.

Lemma filter_noise_tags d tags :
  noise_tags d = Some tags -> List.filter band_tag tags = [].
Proof.
  unfold noise_tags.
  destruct (pyval_eqb_str (dict_get d FIELD_ANNOTATION_NOISE_TYPE (VStr "")) NOISE_TYPE_SAMPLE).
  - cbn. intros [= <-]. case_ifs; reflexivity.
  - destruct (truth (dict_get d FIELD_ANNOTATION_NOISE_COLOR (VStr ""))).
    + destruct (dict_get d FIELD_ANNOTATION_NOISE_COLOR (VStr "")); cbn; try discriminate.
      intros [= <-]. case_ifs; reflexivity.
    + cbn. intros [= <-]. case_ifs; reflexivity.
Qed.

Lemma filter_merge_tag d field default tag :
  (merge_tag d field "merge_prev:" default = Some tag -> band_tag tag = false)
  /\ (merge_tag d field "merge_next:" default = Some tag -> band_tag tag = false).
Proof.
  unfold merge_tag, str_add. split; case_ifs;
    try destruct (dict_get d field (VStr default)); try discriminate;
    intros [= <-]; reflexivity.
Qed.

(** The pitch, tempo and speed tags of a row are those of its tempo and
    its pitch. *)
Lemma get_tags_bands d tags :
  get_tags_from_annotation d = Some tags ->
  List.filter band_tag tags
  = tempo_pitch_tags (get_item_as_int d FIELD_ANNOTATION_TEMPO 100)
                     (get_item_as_int d FIELD_ANNOTATION_PITCH 0).
Proof.
  unfold get_tags_from_annotation.
  destruct (noise_tags d) as [noise|] eqn:En; [|discriminate].
  destruct (merge_tag d FIELD_ANNOTATION_MERGE_PREV "merge_prev:" "begin") as [mp|] eqn:Ep;
    [|discriminate].
  destruct (merge_tag d FIELD_ANNOTATION_MERGE_NEXT "merge_next:" "end") as [mn|] eqn:Ex;
    [|discriminate].
  cbn. intros [= <-].
  destruct (filter_flag_tag_echo d FIELD_ANNOTATION_ECHO_DELAY) as (F1 & _).
  destruct (filter_flag_tag_echo d FIELD_ANNOTATION_HIGH_PASS) as (_ & F2 & _).
  destruct (filter_flag_tag_echo d FIELD_ANNOTATION_LOW_PASS) as (_ & _ & F3 & _).
  destruct (filter_flag_tag_echo d FIELD_ANNOTATION_REVERB) as (_ & _ & _ & F4).
  rewrite !List.filter_app, filter_tempo_pitch_tags, F1, F2, F3, F4.
  rewrite (filter_noise_tags d noise En). cbn [List.filter].
  rewrite (proj1 (filter_merge_tag d _ _ mp) Ep), (proj2 (filter_merge_tag d _ _ mn) Ex).
  now rewrite !app_nil_r.
Qed.

Lemma pitch_bands pitch :
  tempo_pitch_tags 100 pitch
  = if pitch =? 0 then ["pitch:exact"; "tempo:exact"; "speed:exact"]
    else if (-125 <=? pitch) && (pitch <=? 125) then ["pitch:small"]
    else if (-408 <=? pitch) && (pitch <=? 408) then ["pitch:medium"]
    else ["pitch:large"].
Proof.
  destruct threshold_values as (E1 & E2 & E3 & E4 & _).
  unfold tempo_pitch_tags, between. rewrite E1, E2, E3, E4.
  change (100 =? 100) with true. cbv iota. cbn [negb andb].
  destruct (pitch =? 0); [reflexivity|]. case_ifs; reflexivity.
Qed.

Lemma tempo_bands tempo :
  tempo_pitch_tags tempo 0
  = if tempo =? 100 then ["pitch:exact"; "tempo:exact"; "speed:exact"]
    else if (93 <=? tempo) && (tempo <=? 107) then ["tempo:small"]
    else if (79 <=? tempo) && (tempo <=? 126) then ["tempo:medium"]
    else ["tempo:large"].
Proof.
  destruct threshold_values as (_ & _ & _ & _ & E1 & E2 & E3 & E4).
  unfold tempo_pitch_tags, between. rewrite E1, E2, E3, E4.
  change (0 =? 0) with true. cbv iota. rewrite andb_false_r.
  destruct (tempo =? 100); [reflexivity|]. case_ifs; reflexivity.
Qed.

(** C6, as the code has it. The bounds of the bands are the ceilings and
    the floors of the converted thresholds; the bands include their
    bounds, and the pitch 0 and the tempo 100 have a class of their own:
    with the tempo 100, a pitch other than 0 is small exactly when it is
    between the small bounds, bounds included, medium when it is between
    the medium bounds but not small, and large otherwise; likewise for a
    tempo other than 100 with the pitch 0. *)
Theorem tag_bands_inclusive (d : gmap string pyval) (tags : list string) :
  get_tags_from_annotation d = Some tags ->
  let tempo := get_item_as_int d FIELD_ANNOTATION_TEMPO 100 in
  let pitch := get_item_as_int d FIELD_ANNOTATION_PITCH 0 in
  (is_ceil_of_cents THRESHOLD_SMALL MIN_PITCH_SMALL
   /\ is_floor_of_cents (1 / THRESHOLD_SMALL) MAX_PITCH_SMALL
   /\ is_ceil_of_cents THRESHOLD_MEDIUM MIN_PITCH_MEDIUM
   /\ is_floor_of_cents (1 / THRESHOLD_MEDIUM) MAX_PITCH_MEDIUM
   /\ is_ceil_of (tempo_scale_to_per_cent THRESHOLD_SMALL) MIN_TEMPO_SMALL
   /\ is_floor_of (tempo_scale_to_per_cent (1 / THRESHOLD_SMALL)) MAX_TEMPO_SMALL
   /\ is_ceil_of (tempo_scale_to_per_cent THRESHOLD_MEDIUM) MIN_TEMPO_MEDIUM
   /\ is_floor_of (tempo_scale_to_per_cent (1 / THRESHOLD_MEDIUM)) MAX_TEMPO_MEDIUM)
  /\ (tempo = 100 ->
      List.filter band_tag tags
      = if decide (pitch = 0) then ["pitch:exact"; "tempo:exact"; "speed:exact"]
        else if decide (MIN_PITCH_SMALL <= pitch <= MAX_PITCH_SMALL) then ["pitch:small"]
        else if decide (MIN_PITCH_MEDIUM <= pitch <= MAX_PITCH_MEDIUM) then ["pitch:medium"]
        else ["pitch:large"])
  /\ (pitch = 0 ->
      List.filter band_tag tags
      = if decide (tempo = 100) then ["pitch:exact"; "tempo:exact"; "speed:exact"]
        else if decide (MIN_TEMPO_SMALL <= tempo <= MAX_TEMPO_SMALL) then ["tempo:small"]
        else if decide (MIN_TEMPO_MEDIUM <= tempo <= MAX_TEMPO_MEDIUM) then ["tempo:medium"]
        else ["tempo:large"]).
Proof.
  intros Ht tempo pitch. split; [exact threshold_bounds|].
  rewrite (get_tags_bands d tags Ht). fold tempo pitch.
  destruct threshold_values as (E1 & E2 & E3 & E4 & E5 & E6 & E7 & E8).
  rewrite E1, E2, E3, E4, E5, E6, E7, E8. split.
  - intros ->. rewrite pitch_bands.
    destruct (Z.eqb_spec pitch 0); repeat case_decide; try lia; try reflexivity;
      destruct (Z.leb_spec (-125) pitch), (Z.leb_spec pitch 125),
        (Z.leb_spec (-408) pitch), (Z.leb_spec pitch 408);
      cbn [andb]; try lia; reflexivity.
  - intros ->. rewrite tempo_bands.
    destruct (Z.eqb_spec tempo 100); repeat case_decide; try lia; try reflexivity;
      destruct (Z.leb_spec 93 tempo), (Z.leb_spec tempo 107),
        (Z.leb_spec 79 tempo), (Z.leb_spec tempo 126);
      cbn [andb]; try lia; reflexivity.
Qed.

(** C6, as the claim has it, fails at a bound of a band and at the exact
    value: the pitch 125, which is not strictly between the small bounds,
    is small; the pitch 0, which is strictly between them, is not. *)
Lemma tag_bands_not_strict :
  get_tags_from_annotation {[ "tempo" := VStr "100"; "pitch" := VStr "125" ]}
  = Some ["pitch:small"; "noise:none"; "merge_prev:begin"; "merge_next:end"]
  /\ ~ (MIN_PITCH_SMALL < 125 < MAX_PITCH_SMALL)
  /\ get_tags_from_annotation {[ "tempo" := VStr "100"; "pitch" := VStr "0" ]}
     = Some ["pitch:exact"; "tempo:exact"; "speed:exact"; "noise:none";
             "merge_prev:begin"; "merge_next:end"]
  /\ MIN_PITCH_SMALL < 0 < MAX_PITCH_SMALL.
Proof.
  destruct threshold_values as (E1 & E2 & _).
  split; [vm_compute; reflexivity|]. split; [rewrite E1, E2; lia|].
  split; [vm_compute; reflexivity|]. rewrite E1, E2. lia.
Qed.

(** ** The tags argument of [add] *)

Lemma set_update_frame target tags h l :
  l <> target -> set_update target tags h !! l = h !! l.
Proof. intros Hne. unfold set_update. now rewrite lookup_insert_ne. Qed.

Lemma set_update_self target h : deref (set_update target (ByRef target) h) target = deref h target.
Proof.
  unfold set_update, deref at 1. rewrite lookup_insert_eq. cbn [tags_of].
  apply union_idemp_L.
Qed.

(** [add] leaves the contents of the object passed as [tags] as they
    are. *)
Lemma add_keeps_argument l h :
  (forall recall precision self,
     deref (snd (RecallPrecisionResults.add recall precision (ByRef l) self h)) l = deref h l)
  /\ (forall tp up fp fn self,
       deref (snd (PositivesNegativesResults.add tp up fp fn (ByRef l) self h)) l = deref h l).
Proof.
  assert (H : forall target, deref (set_update target (ByRef l) h) l = deref h l).
  { intros target. destruct (decide (l = target)) as [->|Hne].
    - apply set_update_self.
    - unfold deref. now rewrite set_update_frame. }
  split; intros; cbn; apply H.
Qed.

Lemma own_tags_update h target tags l :
  own_tags h target -> own_tags h l -> own_tags (set_update target tags h) l.
Proof.
  intros (Ht & _) (Hl & Hn1 & Hn2). repeat split; auto.
  unfold set_update. destruct (decide (target = l)) as [->|Hne].
  - rewrite lookup_insert_eq. eauto.
  - now rewrite lookup_insert_ne.
Qed.

Lemma own_tags_new h l :
  own_tags h l -> own_tags (<[fresh (dom h) := ∅]> h) l.
Proof.
  intros ((x & Hx) & Hn1 & Hn2). repeat split; auto.
  assert (fresh (dom h) <> l).
  { intros E. subst l. apply (is_fresh (dom h)). apply elem_of_dom. eauto. }
  rewrite lookup_insert_ne by auto. eauto.
Qed.

Lemma own_tags_fresh h :
  h !! RecallPrecisionResults.add_default = Some ∅ ->
  h !! PositivesNegativesResults.add_default = Some ∅ ->
  own_tags (<[fresh (dom h) := ∅]> h) (fresh (dom h)).
Proof.
  intros H1 H2. repeat split.
  - rewrite lookup_insert_eq. eauto.
  - intros E. apply (is_fresh (dom h)). rewrite E. apply elem_of_dom. eauto.
  - intros E. apply (is_fresh (dom h)). rewrite E. apply elem_of_dom. eauto.
Qed.

Lemma fresh_not_default (h : gmap loc (gset string)) (l : loc) (v : gset string) :
  h !! l = Some v -> <[fresh (dom h) := ∅]> h !! l = Some v.
Proof.
  intros H. rewrite lookup_insert_ne; auto.
  intros E. apply (is_fresh (dom h)). rewrite E. apply elem_of_dom. eauto.
Qed.

Lemma step_defaults_untouched s c : defaults_untouched s -> defaults_untouched (step s c).
Proof.
  intros (D1 & D2 & Hrp & Hpn). destruct c as [| |i recall precision tags|i tp up fp fn tags].
  - cbn. repeat split; cbn.
    + now apply fresh_not_default.
    + now apply fresh_not_default.
    + apply Forall_app. split.
      * eapply Forall_impl; [exact Hrp|]. intros x. apply own_tags_new.
      * constructor; [|constructor]. cbn. now apply own_tags_fresh.
    + eapply Forall_impl; [exact Hpn|]. intros x. apply own_tags_new.
  - cbn. repeat split; cbn.
    + now apply fresh_not_default.
    + now apply fresh_not_default.
    + eapply Forall_impl; [exact Hrp|]. intros x. apply own_tags_new.
    + apply Forall_app. split.
      * eapply Forall_impl; [exact Hpn|]. intros x. apply own_tags_new.
      * constructor; [|constructor]. cbn. now apply own_tags_fresh.
  - cbn [step]. destruct (rp_accumulators s !! i) as [self|] eqn:E; [|repeat split; auto].
    assert (Hown : own_tags (objects s) (RecallPrecisionResults._tags self)).
    { rewrite Forall_forall in Hrp. apply Hrp. eapply list_elem_of_lookup_2; eauto. }
    cbn. repeat split; cbn.
    + rewrite set_update_frame; auto. intros E1. destruct Hown as (_ & Hn & _). apply Hn. symmetry. exact E1.
    + rewrite set_update_frame; auto. intros E1. destruct Hown as (_ & _ & Hn). apply Hn. symmetry. exact E1.
    + apply Forall_insert.
      * eapply Forall_impl; [exact Hrp|]. intros x. now apply own_tags_update.
      * cbn. now apply own_tags_update.
    + eapply Forall_impl; [exact Hpn|]. intros x. now apply own_tags_update.
  - cbn [step]. destruct (pn_accumulators s !! i) as [self|] eqn:E; [|repeat split; auto].
    assert (Hown : own_tags (objects s)
                     (RecallPrecisionResults._tags (PositivesNegativesResults.super self))).
    { rewrite Forall_forall in Hpn. apply Hpn. eapply list_elem_of_lookup_2; eauto. }
    cbn. repeat split; cbn.
    + rewrite set_update_frame; auto. intros E1. destruct Hown as (_ & Hn & _). apply Hn. symmetry. exact E1.
    + rewrite set_update_frame; auto. intros E1. destruct Hown as (_ & _ & Hn). apply Hn. symmetry. exact E1.
    + eapply Forall_impl; [exact Hrp|]. intros x. now apply own_tags_update.
    + apply Forall_insert.
      * eapply Forall_impl; [exact Hpn|]. intros x. now apply own_tags_update.
      * cbn. now apply own_tags_update.
Qed.

Lemma run_defaults_untouched calls : defaults_untouched (run calls).
Proof.
  unfold run. assert (H0 : defaults_untouched initial_state).
  { repeat split; try constructor. }
  revert H0. generalize initial_state.
  induction calls as [|c r IH]; intros s Hs; [exact Hs|].
  cbn [fold_left]. apply IH. now apply step_defaults_untouched.
Qed.

(** C10. [add] does not change the contents of the object it receives as
    [tags]; so, after any calls that create accumulators and add to them,
    with any tags, the default objects of the two [add] methods are still
    empty, and an [add] with the default adds no tag to the accumulator. *)
Theorem add_never_mutates_tags (calls : list call) :
  let s := run calls in
  (forall l h,
     (forall recall precision self,
        deref (snd (RecallPrecisionResults.add recall precision (ByRef l) self h)) l
        = deref h l)
     /\ (forall tp up fp fn self,
           deref (snd (PositivesNegativesResults.add tp up fp fn (ByRef l) self h)) l
           = deref h l))
  /\ deref (objects s) RecallPrecisionResults.add_default = ∅
  /\ deref (objects s) PositivesNegativesResults.add_default = ∅
  /\ (forall self recall precision,
        self ∈ rp_accumulators s ->
        deref (snd (RecallPrecisionResults.add recall precision
                      (ByRef RecallPrecisionResults.add_default) self (objects s)))
              (RecallPrecisionResults._tags self)
        = deref (objects s) (RecallPrecisionResults._tags self))
  /\ (forall self tp up fp fn,
        self ∈ pn_accumulators s ->
        deref (snd (PositivesNegativesResults.add tp up fp fn
                      (ByRef PositivesNegativesResults.add_default) self (objects s)))
              (RecallPrecisionResults._tags (PositivesNegativesResults.super self))
        = deref (objects s) (RecallPrecisionResults._tags (PositivesNegativesResults.super self))).
Proof.
  intros s. destruct (run_defaults_untouched calls) as (D1 & D2 & Hrp & Hpn). fold s in D1, D2, Hrp, Hpn.
  assert (E1 : deref (objects s) RecallPrecisionResults.add_default = ∅)
    by (unfold deref; now rewrite D1).
  assert (E2 : deref (objects s) PositivesNegativesResults.add_default = ∅)
    by (unfold deref; now rewrite D2).
  split; [exact add_keeps_argument|]. split; [exact E1|]. split; [exact E2|]. split.
  - intros self recall precision _. cbn. unfold set_update, deref at 1.
    rewrite lookup_insert_eq. cbn [tags_of]. rewrite E1. apply (right_id_L ∅ (∪)).
  - intros self tp up fp fn _. cbn. unfold set_update, deref at 1.
    rewrite lookup_insert_eq. cbn [tags_of]. rewrite E2. apply (right_id_L ∅ (∪)).
Qed.

(** Tags passed to one accumulator do not reach another through the
    default. *)
Lemma add_default_after_tags :
  let s := run [NewRecallPrecision; NewRecallPrecision;
                AddRecallPrecision 0 1 1 (Some (Fresh ["echo"; "reverb"]));
                AddRecallPrecision 1 0 1 None;
                AddRecallPrecision 0 1 0 None] in
  map (fun self => deref (objects s) (RecallPrecisionResults._tags self)) (rp_accumulators s)
  = [{[ "echo"; "reverb" ]}; ∅].
Proof. vm_compute. reflexivity. Qed.

(** ** The calls of [evaluate] *)

Lemma foldM_ext_in {A B : Type} (f g : B -> A -> option B) (l : list A) (b : B) :
  (forall acc x, In x l -> f acc x = g acc x) -> foldM f b l = foldM g b l.
Proof.
  revert b. induction l as [|x r IH]; intros b H; [reflexivity|].
  cbn [foldM]. rewrite (H b x) by now left.
  destruct (g b x); [|reflexivity]. apply IH. intros acc y Hy. apply H. now right.
Qed.

Lemma foldM_map {A B C : Type} (f : B -> A -> option B) (g : C -> A) (l : list C) (b : B) :
  foldM f b (map g l) = foldM (fun acc x => f acc (g x)) b l.
Proof.
  revert b. induction l as [|x r IH]; intros b; [reflexivity|].
  cbn [map foldM]. destruct (f b (g x)); [apply IH | reflexivity].
Qed.

Lemma foldM_filter {A B : Type} (f : B -> A -> option B) (p : A -> bool) (l : list A) (b : B) :
  foldM f b (List.filter p l) = foldM (fun acc x => if p x then f acc x else Some acc) b l.
Proof.
  revert b. induction l as [|x r IH]; intros b; [reflexivity|].
  cbn [List.filter foldM]. destruct (p x); [|apply IH].
  cbn [foldM]. destruct (f b x); [apply IH | reflexivity].
Qed.

Lemma foldM_app {A B : Type} (f : B -> A -> option B) (l1 l2 : list A) (b : B) :
  foldM f b (l1 ++ l2) = match foldM f b l1 with Some b' => foldM f b' l2 | None => None end.
Proof.
  revert b. induction l1 as [|x r IH]; intros b; [reflexivity|].
  cbn [app foldM]. destruct (f b x); [apply IH | reflexivity].
Qed.

Lemma getitem_In {K V : Type} `{EqDecision K} (d : list (K * V)) (k : K) :
  In k (keys d) -> exists v, getitem d k = Some v.
Proof.
  induction d as [|[k' v] r IH]; intros H; [destruct H|].
  cbn [getitem]. destruct (decide (k' = k)); [eauto|].
  apply IH. destruct H as [H|H]; [contradiction | exact H].
Qed.

Lemma getitem_not_In {K V : Type} `{EqDecision K} (d : list (K * V)) (k : K) :
  ~ In k (keys d) -> getitem d k = None.
Proof.
  induction d as [|[k' v] r IH]; intros H; [reflexivity|].
  cbn [getitem]. destruct (decide (k' = k)) as [->|Hne].
  - exfalso. apply H. now left.
  - apply IH. intros Hin. apply H. now right.
Qed.

Lemma contains_In {K V : Type} `{EqDecision K} (d : list (K * V)) (k : K) :
  contains d k = true <-> In k (keys d).
Proof.
  unfold contains. split.
  - intros H. destruct (in_dec (fun x y => decide (x = y)) k (keys d)) as [Hin|Hn]; auto.
    rewrite getitem_not_In in H by exact Hn. discriminate.
  - intros H. destruct (getitem_In d k H) as [v ->]. reflexivity.
Qed.

Lemma evaluate_calls_list {Segment Self : Type}
    (ev : string * string -> list Segment -> list Segment -> Self -> option Self)
    (annotations matches : list (string * string * list Segment)) (self : Self) :
  evaluate ev annotations matches self
  = foldM (fun self c => ev (fst (fst c)) (snd (fst c)) (snd c) self) self
      (calls_list annotations matches).
Proof.
  unfold evaluate, calls_list. rewrite foldM_app, foldM_map. cbn [fst snd].
  rewrite (foldM_ext_in _
             (fun self pair => ev pair (getitem_or_empty annotations pair)
                                 (getitem_or_empty matches pair) self) (keys matches)).
  2:{ intros acc pair Hin. unfold getitem_or_empty.
      destruct (getitem_In matches pair Hin) as [v ->]. cbn.
      destruct (contains annotations pair) eqn:E.
      - apply contains_In in E. destruct (getitem_In annotations pair E) as [a ->].
        reflexivity.
      - unfold contains in E. destruct (getitem annotations pair); [discriminate|].
        reflexivity. }
  destruct (foldM _ self (keys matches)) as [self1|]; [|reflexivity]. cbn [mbind option_bind].
  rewrite foldM_map, foldM_filter. cbn [fst snd].
  apply foldM_ext_in. intros acc pair Hin.
  destruct (negb (contains matches pair)); [|reflexivity].
  unfold getitem_or_empty. destruct (getitem_In annotations pair Hin) as [a ->].
  reflexivity.
Qed.

Lemma foldM_record {Segment : Type}
    (l t : list (string * string * list Segment * list Segment)) :
  foldM (fun t c => record_call (fst (fst c)) (snd (fst c)) (snd c) t) t l = Some (t ++ l).
Proof.
  revert t. induction l as [|[[p a] m] r IH]; intros t.
  - cbn. now rewrite app_nil_r.
  - cbn [foldM record_call fst snd]. rewrite IH, <- app_assoc. reflexivity.
Qed.

Lemma evaluate_calls_eq {Segment : Type}
    (annotations matches : list (string * string * list Segment)) :
  evaluate_calls annotations matches = calls_list annotations matches.
Proof.
  unfold evaluate_calls. rewrite evaluate_calls_list, foldM_record. reflexivity.
Qed.

Lemma calls_for_map {Segment : Type} (F G : string * string -> list Segment)
    (pair : string * string) (l : list (string * string)) :
  calls_for pair (map (fun p => (p, F p, G p)) l)
  = length (List.filter (fun p => bool_decide (p = pair)) l).
Proof.
  unfold calls_for. induction l as [|p r IH]; [reflexivity|].
  cbn [map List.filter fst]. destruct (bool_decide (p = pair)); cbn [length]; now rewrite IH.
Qed.

Lemma count_absent {K : Type} `{EqDecision K} (k : K) (l : list K) :
  ~ In k l -> length (List.filter (fun x => bool_decide (x = k)) l) = 0%nat.
Proof.
  induction l as [|x r IH]; intros H; [reflexivity|].
  cbn [List.filter]. rewrite bool_decide_eq_false_2.
  - apply IH. intros Hin. apply H. now right.
  - intros ->. apply H. now left.
Qed.

Lemma count_NoDup {K : Type} `{EqDecision K} (k : K) (l : list K) :
  List.NoDup l -> In k l -> length (List.filter (fun x => bool_decide (x = k)) l) = 1%nat.
Proof.
  induction 1 as [|x r Hx Hr IH]; intros Hin; [destruct Hin|].
  cbn [List.filter]. destruct (decide (x = k)) as [->|Hne].
  - rewrite bool_decide_eq_true_2 by reflexivity. cbn [length].
    now rewrite count_absent.
  - rewrite bool_decide_eq_false_2 by exact Hne.
    apply IH. destruct Hin as [Hin|Hin]; [contradiction | exact Hin].
Qed.

Lemma calls_for_app {Segment : Type} (pair : string * string)
    (l1 l2 : list (string * string * list Segment * list Segment)) :
  calls_for pair (l1 ++ l2) = (calls_for pair l1 + calls_for pair l2)%nat.
Proof. unfold calls_for. now rewrite List.filter_app, length_app. Qed.

Lemma NoDup_filter_list {K : Type} (p : K -> bool) (l : list K) :
  List.NoDup l -> List.NoDup (List.filter p l).
Proof.
  induction 1 as [|x r Hx Hr IH]; [constructor|].
  cbn [List.filter]. destruct (p x); [|exact IH].
  constructor; [|exact IH]. intros Hin. apply filter_In in Hin. tauto.
Qed.

Lemma calls_list_present {Segment : Type}
    (annotations matches : list (string * string * list Segment)) (pair : string * string) :
  List.NoDup (keys annotations) -> List.NoDup (keys matches) ->
  In pair (keys annotations) \/ In pair (keys matches) ->
  calls_for pair (calls_list annotations matches) = 1%nat.
Proof.
  intros Ha Hm Hin. unfold calls_list. rewrite calls_for_app, !calls_for_map.
  destruct (in_dec (fun x y => decide (x = y)) pair (keys matches)) as [Him|Hnm].
  - rewrite (count_NoDup pair (keys matches)) by assumption.
    rewrite count_absent; [reflexivity|].
    intros Hf. apply filter_In in Hf. destruct Hf as [_ Hf].
    apply contains_In in Him. rewrite Him in Hf. discriminate.
  - rewrite (count_absent pair (keys matches)) by assumption.
    apply count_NoDup; [now apply NoDup_filter_list|].
    apply filter_In. split; [tauto|].
    destruct (contains matches pair) eqn:E; [|reflexivity].
    apply contains_In in E. contradiction.
Qed.

Lemma calls_list_absent {Segment : Type}
    (annotations matches : list (string * string * list Segment)) (pair : string * string) :
  ~ (In pair (keys annotations) \/ In pair (keys matches)) ->
  calls_for pair (calls_list annotations matches) = 0%nat.
Proof.
  intros Hn. unfold calls_list. rewrite calls_for_app, !calls_for_map.
  rewrite !count_absent; [reflexivity| |].
  - intros Hf. apply filter_In in Hf. tauto.
  - tauto.
Qed.

Lemma calls_list_arguments {Segment : Type}
    (annotations matches : list (string * string * list Segment))
    (pair : string * string) (annotation match_ : list Segment) :
  In (pair, annotation, match_) (calls_list annotations matches) ->
  (In pair (keys annotations) \/ In pair (keys matches))
  /\ annotation = getitem_or_empty annotations pair
  /\ match_ = getitem_or_empty matches pair.
Proof.
  intros Hin. unfold calls_list in Hin.
  apply in_app_or in Hin. destruct Hin as [Hin|Hin]; apply in_map_iff in Hin;
    destruct Hin as (p & [= <- <- <-] & Hp).
  - repeat split; auto.
  - apply filter_In in Hp. destruct Hp as [Hk Hp]. repeat split; auto.
    unfold getitem_or_empty. unfold contains in Hp.
    destruct (getitem matches p); [discriminate | reflexivity].
Qed.

(** C1. [evaluate] calls the pairwise scorer once for each key of the
    union of the two mappings and for no other pair, with the lists of
    the pair in the two mappings, the empty list standing for a missing
    side. *)
Theorem evaluate_scores_each_pair_once {Segment : Type}
    (annotations matches : list (string * string * list Segment)) :
  List.NoDup (keys annotations) -> List.NoDup (keys matches) ->
  (forall (Self : Type)
          (ev : string * string -> list Segment -> list Segment -> Self -> option Self)
          (self : Self),
      evaluate ev annotations matches self
      = foldM (fun self c => ev (fst (fst c)) (snd (fst c)) (snd c) self) self
          (evaluate_calls annotations matches))
  /\ (forall pair,
        In pair (keys annotations) \/ In pair (keys matches) ->
        calls_for pair (evaluate_calls annotations matches) = 1%nat)
  /\ (forall pair,
        ~ (In pair (keys annotations) \/ In pair (keys matches)) ->
        calls_for pair (evaluate_calls annotations matches) = 0%nat)
  /\ (forall pair annotation match_,
        In (pair, annotation, match_) (evaluate_calls annotations matches) ->
        annotation = getitem_or_empty annotations pair
        /\ match_ = getitem_or_empty matches pair).
Proof.
  intros Ha Hm. rewrite evaluate_calls_eq. split; [|split; [|split]].
  - intros Self ev self. apply evaluate_calls_list.
  - intros pair Hin. now apply calls_list_present.
  - intros pair Hn. now apply calls_list_absent.
  - intros pair annotation match_ Hin.
    apply calls_list_arguments in Hin. tauto.
Qed.

(** ** The track evaluator *)

Lemma dict_get_csv_row d key default :
  csv_row d ->
  dict_get d key (VStr default) = VNone \/ exists s, dict_get d key (VStr default) = VStr s.
Proof.
  intros Hd. unfold dict_get. destruct (d !! key) as [v|] eqn:E; [eapply Hd; eauto|].
  right. eauto.
Qed.

(** On the rows of a CSV file the tag classifier raises nothing. *)
Lemma get_tags_csv_row d : csv_row d -> exists tags, get_tags_from_annotation d = Some tags.
Proof.
  intros Hd. unfold get_tags_from_annotation.
  assert (Hn : exists t, noise_tags d = Some t).
  { unfold noise_tags. destruct (pyval_eqb_str _ NOISE_TYPE_SAMPLE); [cbn; eauto|].
    destruct (dict_get_csv_row d FIELD_ANNOTATION_NOISE_COLOR "" Hd) as [->|[c ->]];
      cbn; case_ifs; cbn; eauto. }
  assert (Hm : forall field prefix default, exists t, merge_tag d field prefix default = Some t).
  { intros field prefix default. unfold merge_tag.
    destruct (dict_get_csv_row d field default Hd) as [->|[c ->]]; cbn; case_ifs; cbn; eauto. }
  destruct Hn as [noise ->].
  destruct (Hm FIELD_ANNOTATION_MERGE_PREV "merge_prev:" "begin") as [mp ->].
  destruct (Hm FIELD_ANNOTATION_MERGE_NEXT "merge_next:" "end") as [mn ->].
  cbn. eauto.
Qed.

Lemma table_add_counts {K : Type} `{Countable K} (tp up fp fn : Z) (key : K) tags
    (table : gmap K PositivesNegativesResults.t) (h : gmap loc (gset string)) (k : K) :
  counts_at (fst (table_add PositivesNegativesResults.__init__
                    (PositivesNegativesResults.add tp up fp fn) key tags (table, h))) k
  = if decide (k = key)
    then Some (add4 (default zero4 (counts_at table key)) (tp, up, fp, fn))
    else counts_at table k.
Proof.
  unfold table_add, counts_at, PositivesNegativesResults.add,
    PositivesNegativesResults.__init__, RecallPrecisionResults.__init__,
    RecallPrecisionResults.add, new_set.
  destruct (table !! key) as [r|] eqn:E; cbn [fst snd];
    (destruct (decide (k = key)) as [->|Hne];
     [rewrite lookup_insert_eq; reflexivity
     | rewrite lookup_insert_ne by auto; reflexivity]).
Qed.

Lemma table_add_keys {K R : Type} `{Countable K}
    (new : gmap loc (gset string) -> R * gmap loc (gset string))
    (add : tags_arg -> R -> gmap loc (gset string) -> R * gmap loc (gset string))
    (key : K) tags (st : gmap K R * gmap loc (gset string)) (k : K) :
  is_Some (fst (table_add new add key tags st) !! k) -> k = key \/ is_Some (fst st !! k).
Proof.
  destruct st as [table h]. unfold table_add.
  destruct (table !! key) as [r|].
  - destruct (add tags r h) as [r' h']. cbn [fst].
    destruct (decide (k = key)) as [->|Hne]; [now left|].
    rewrite lookup_insert_ne by auto. now right.
  - destruct (new h) as [r h0]. destruct (add tags r h0) as [r' h']. cbn [fst].
    destruct (decide (k = key)) as [->|Hne]; [now left|].
    rewrite lookup_insert_ne by auto. now right.
Qed.

Lemma tag_fold_keys {R : Type}
    (new : gmap loc (gset string) -> R * gmap loc (gset string))
    (add : tags_arg -> R -> gmap loc (gset string) -> R * gmap loc (gset string))
    (tags : list string) (st : gmap string R * gmap loc (gset string)) (t : string) :
  is_Some (fst (fold_left (fun st tag => table_add new add tag (Fresh [tag]) st) tags st) !! t) ->
  In t tags \/ is_Some (fst st !! t).
Proof.
  revert st. induction tags as [|tag r IH]; intros st Hs; [now right|].
  cbn [fold_left] in Hs. apply IH in Hs. destruct Hs as [Hs|Hs].
  - left. now right.
  - apply table_add_keys in Hs. destruct Hs as [->|Hs]; [left; now left | now right].
Qed.

Lemma tag_loop_keys {R Segment : Type}
    (new : gmap loc (gset string) -> R * gmap loc (gset string))
    (add : tags_arg -> R -> gmap loc (gset string) -> R * gmap loc (gset string))
    (rowf : Segment -> gmap string pyval)
    (annotation : list Segment) (st : gmap string R * gmap loc (gset string)) :
  (forall a, In a annotation -> exists tags, get_tags_from_annotation (rowf a) = Some tags) ->
  exists st',
    foldM (fun st a =>
             tags ← get_tags_from_annotation (rowf a);
             Some (fold_left (fun st tag => table_add new add tag (Fresh [tag]) st) tags st))
          st annotation = Some st'
    /\ forall t, is_Some (fst st' !! t) ->
         is_Some (fst st !! t)
         \/ exists a tags, In a annotation
              /\ get_tags_from_annotation (rowf a) = Some tags /\ In t tags.
Proof.
  revert st. induction annotation as [|a r IH]; intros st Hok.
  - exists st. split; [reflexivity|]. intros t Ht. now left.
  - destruct (Hok a (or_introl eq_refl)) as [tags Et]. cbn [foldM]. rewrite Et. cbn.
    destruct (IH (fold_left (fun st tag => table_add new add tag (Fresh [tag]) st) tags st))
      as (st' & E & Hk).
    { intros b Hb. apply Hok. now right. }
    exists st'. split; [exact E|]. intros t Ht. apply Hk in Ht.
    destruct Ht as [Ht|(b & tb & Hb & Eb & Hin)].
    + apply tag_fold_keys in Ht. destruct Ht as [Ht|Ht]; [|now left].
      right. exists a, tags. repeat split; auto; now left.
    + right. exists b, tb. repeat split; auto; now right.
Qed.

(** What one call of a scorer with counts stores. *)
Lemma store_results_counts {Segment : Type} (rowf : Segment -> gmap string pyval)
    (tp up fp fn : Z) (pair : string * string) (annotation : list Segment)
    (self : Evaluator PositivesNegativesResults.t) :
  (forall a, In a annotation -> exists tags, get_tags_from_annotation (rowf a) = Some tags) ->
  exists self',
    store_results PositivesNegativesResults.__init__
      (PositivesNegativesResults.add tp up fp fn)
      PositivesNegativesResults.add_default rowf pair annotation self = Some self'
    /\ (forall p, counts_at (_pair_results self') p
                  = if decide (p = pair)
                    then Some (add4 (default zero4 (counts_at (_pair_results self) pair))
                                 (tp, up, fp, fn))
                    else counts_at (_pair_results self) p)
    /\ (forall r, counts_at (_ref_results self') r
                  = if decide (r = snd pair)
                    then Some (add4 (default zero4 (counts_at (_ref_results self) (snd pair)))
                                 (tp, up, fp, fn))
                    else counts_at (_ref_results self) r)
    /\ counts (_all_results self') = add4 (counts (_all_results self)) (tp, up, fp, fn)
    /\ (forall t, is_Some (_tag_results self' !! t) ->
          is_Some (_tag_results self !! t)
          \/ exists a tags, In a annotation
               /\ get_tags_from_annotation (rowf a) = Some tags /\ In t tags).
Proof.
  intros Hok. unfold store_results.
  assert (H0 : exists tags0, match annotation with
                             | [] => Some []
                             | a :: _ => get_tags_from_annotation (rowf a)
                             end = Some tags0).
  { destruct annotation as [|a r]; [eauto|]. apply Hok. now left. }
  destruct H0 as [tags0 ->]. cbn [mbind option_bind].
  pose proof (table_add_counts tp up fp fn pair (Fresh tags0) (_pair_results self) (heap self))
    as Hp.
  destruct (table_add _ _ pair (Fresh tags0) (_pair_results self, heap self)) as [pt h1].
  pose proof (table_add_counts tp up fp fn (snd pair)
                (ByRef PositivesNegativesResults.add_default) (_ref_results self) h1) as Hr.
  destruct (table_add _ _ (snd pair) _ (_ref_results self, h1)) as [rt h2].
  destruct (tag_loop_keys PositivesNegativesResults.__init__
              (PositivesNegativesResults.add tp up fp fn) rowf annotation
              (_tag_results self, h2) Hok) as ([tt h3] & -> & Ht).
  cbn [mbind option_bind fst snd] in *.
  eexists. split; [reflexivity|]. cbn. repeat split; auto.
Qed.

Section CountsEvaluator.

Context {Segment : Type}.
Variable rowf : Segment -> gmap string pyval.
Variable score : list Segment -> list Segment -> Z * Z * Z * Z.

(** The [_evaluate_pair] of an evaluator that keeps counts. *)
Let ev (pair : string * string) (annotation match_ : list Segment)
    (self : Evaluator PositivesNegativesResults.t) :=
  let '(tp, up, fp, fn) := score annotation match_ in
  store_results PositivesNegativesResults.__init__
    (PositivesNegativesResults.add tp up fp fn)
    PositivesNegativesResults.add_default rowf pair annotation self.

Lemma total_snoc calls c :
  total score (calls ++ [c]) = add4 (total score calls) (score (snd (fst c)) (snd c)).
Proof. unfold total. rewrite fold_left_app. reflexivity. Qed.

Lemma total_if_any_snoc calls c :
  total_if_any score (calls ++ [c])
  = Some (add4 (default zero4 (total_if_any score calls)) (score (snd (fst c)) (snd c))).
Proof.
  destruct calls as [|x r]; [reflexivity|].
  change ((x :: r) ++ [c]) with (x :: (r ++ [c])). unfold total_if_any.
  change (x :: (r ++ [c])) with ((x :: r) ++ [c]). now rewrite total_snoc.
Qed.

Lemma tables_hold_init : tables_hold rowf score [] (__init__ PositivesNegativesResults.__init__).
Proof.
  repeat split.
  intros tag [x Hx]. cbn in Hx. rewrite lookup_empty in Hx. discriminate.
Qed.

Lemma tables_hold_step calls pair annotation match_ self :
  tables_hold rowf score calls self ->
  (forall a, In a annotation -> exists tags, get_tags_from_annotation (rowf a) = Some tags) ->
  exists self', ev pair annotation match_ self = Some self'
    /\ tables_hold rowf score (calls ++ [(pair, annotation, match_)]) self'.
Proof.
  intros (Hp & Hr & Ha & Ht) Hok. unfold ev.
  destruct (score annotation match_) as [[[tp up] fp] fn] eqn:Es.
  destruct (store_results_counts rowf tp up fp fn pair annotation self Hok)
    as (self' & E & Hp' & Hr' & Ha' & Ht').
  exists self'. split; [exact E|]. repeat split.
  - intros p. rewrite Hp', List.filter_app. cbn [List.filter fst snd].
    destruct (decide (p = pair)) as [->|Hne].
    + rewrite bool_decide_eq_true_2 by reflexivity.
      rewrite total_if_any_snoc, Hp. cbn [fst snd]. now rewrite Es.
    + rewrite bool_decide_eq_false_2 by congruence. now rewrite app_nil_r.
  - intros r. rewrite Hr', List.filter_app. cbn [List.filter fst snd].
    destruct (decide (r = snd pair)) as [->|Hne].
    + rewrite bool_decide_eq_true_2 by reflexivity.
      rewrite total_if_any_snoc, Hr. cbn [fst snd]. now rewrite Es.
    + rewrite bool_decide_eq_false_2 by congruence. now rewrite app_nil_r.
  - rewrite Ha', total_snoc, Ha. cbn [fst snd]. now rewrite Es.
  - intros tag Hs. apply Ht' in Hs. destruct Hs as [Hs|(a & tags & Hin & Eg & Hi)].
    + destruct (Ht tag Hs) as (c & a & tags & Hc & Hin & Eg & Hi).
      exists c, a, tags. repeat split; auto. apply in_or_app. now left.
    + exists (pair, annotation, match_), a, tags. repeat split; auto.
      apply in_or_app. right. now left.
Qed.

Lemma tables_hold_fold done rest self :
  tables_hold rowf score done self ->
  (forall c a, In c rest -> In a (snd (fst c)) ->
               exists tags, get_tags_from_annotation (rowf a) = Some tags) ->
  exists self',
    foldM (fun self c => ev (fst (fst c)) (snd (fst c)) (snd c) self) self rest = Some self'
    /\ tables_hold rowf score (done ++ rest) self'.
Proof.
  revert done self. induction rest as [|[[p a] m] r IH]; intros done self Hinv Hok.
  - exists self. split; [reflexivity|]. now rewrite app_nil_r.
  - destruct (tables_hold_step done p a m self Hinv) as (self1 & E1 & Hinv1).
    { intros x Hx. apply (Hok (p, a, m)); [now left | exact Hx]. }
    destruct (IH (done ++ [(p, a, m)]) self1 Hinv1) as (self' & E & Hinv').
    { intros c x Hc Hx. apply (Hok c); [now right | exact Hx]. }
    exists self'. cbn [foldM fst snd]. rewrite E1. split; [exact E|].
    now rewrite <- app_assoc in Hinv'.
Qed.

End CountsEvaluator.

Lemma getitem_entry {K V : Type} `{EqDecision K} (d : list (K * V)) (k : K) (v : V) :
  getitem d k = Some v -> In (k, v) d.
Proof.
  induction d as [|[k' v'] r IH]; [discriminate|].
  cbn [getitem]. destruct (decide (k' = k)) as [->|Hne].
  - intros [= ->]. now left.
  - intros H. right. now apply IH.
Qed.

Lemma getitem_or_empty_In {Segment : Type} (d : list (string * string * list Segment))
    (pair : string * string) (a : Segment) :
  In a (getitem_or_empty d pair) ->
  In pair (keys d) /\ exists rows, In (pair, rows) d /\ In a rows.
Proof.
  unfold getitem_or_empty. destruct (getitem d pair) as [rows|] eqn:E; [|intros []].
  intros Ha. apply getitem_entry in E. split; [|eauto].
  unfold keys. apply in_map_iff. exists (pair, rows). auto.
Qed.

Lemma filter_one {A : Type} (p : A -> bool) (l : list A) :
  length (List.filter p l) = 1%nat -> exists x, List.filter p l = [x] /\ In x l /\ p x = true.
Proof.
  intros H. destruct (List.filter p l) as [|x [|y r]] eqn:E; try discriminate.
  exists x. split; [reflexivity|]. apply filter_In. rewrite E. now left.
Qed.

Lemma add4_zero x : add4 zero4 x = x.
Proof. destruct x as [[[a b] c] d]. reflexivity. Qed.

Lemma track_scores_cases {Segment : Type} (annotation match_ : list Segment) :
  let '(tp, up, fp, fn) := TrackEvaluator.scores annotation match_ in
  (tp = 1 <-> annotation <> [] /\ match_ <> []) /\ (tp = 0 \/ tp = 1)
  /\ (fn = 1 <-> annotation <> [] /\ match_ = []) /\ (fn = 0 \/ fn = 1)
  /\ (fp = 1 <-> annotation = [] /\ match_ <> []) /\ (fp = 0 \/ fp = 1)
  /\ up = 0.
Proof.
  destruct annotation as [|a r], match_ as [|m s]; cbn;
    repeat split; try tauto; try discriminate; try lia;
    intros [H1 H2]; congruence.
Qed.

(** C2. The track evaluator scores a pair with [tp = 1] exactly when it
    has annotations and matches, [fn = 1] exactly when it has only
    annotations, [fp = 1] exactly when it has only matches, and [up = 0];
    on the rows of a CSV file [evaluate] ends, and then the table of the
    pairs holds these counts for each pair of either mapping and nothing
    for any other pair, the table of the references has no entry for a
    reference with no pair, a tag of the table of the tags is a tag of a
    row of the annotations, and the total is the sum over the calls. *)
Theorem track_evaluator_counts
    (annotations matches : list (string * string * list (gmap string pyval))) :
  List.NoDup (keys annotations) -> List.NoDup (keys matches) ->
  (forall pair rows a, In (pair, rows) annotations -> In a rows -> csv_row a) ->
  (forall annotation match_ : list (gmap string pyval),
     let '(tp, up, fp, fn) := TrackEvaluator.scores annotation match_ in
     (tp = 1 <-> annotation <> [] /\ match_ <> []) /\ (tp = 0 \/ tp = 1)
     /\ (fn = 1 <-> annotation <> [] /\ match_ = []) /\ (fn = 0 \/ fn = 1)
     /\ (fp = 1 <-> annotation = [] /\ match_ <> []) /\ (fp = 0 \/ fp = 1)
     /\ up = 0)
  /\ exists self',
      evaluate TrackEvaluator._evaluate_pair annotations matches TrackEvaluator.__init__
      = Some self'
      /\ (forall pair, In pair (keys annotations) \/ In pair (keys matches) ->
            exists r, _pair_results self' !! pair = Some r
              /\ counts r = TrackEvaluator.scores (getitem_or_empty annotations pair)
                              (getitem_or_empty matches pair))
      /\ (forall pair, ~ (In pair (keys annotations) \/ In pair (keys matches)) ->
            _pair_results self' !! pair = None)
      /\ (forall ref,
            (forall q, ~ (In (q, ref) (keys annotations) \/ In (q, ref) (keys matches))) ->
            _ref_results self' !! ref = None)
      /\ (forall tag, is_Some (_tag_results self' !! tag) ->
            exists pair a tags, In pair (keys annotations)
              /\ In a (getitem_or_empty annotations pair)
              /\ get_tags_from_annotation a = Some tags /\ In tag tags)
      /\ counts (_all_results self')
         = total TrackEvaluator.scores (evaluate_calls annotations matches).
Proof.
  intros Ha Hm Hcsv. split; [intros annotation match_; apply track_scores_cases|].
  destruct (tables_hold_fold id TrackEvaluator.scores [] (calls_list annotations matches)
              TrackEvaluator.__init__ (tables_hold_init id TrackEvaluator.scores))
    as (self' & E & Hp & Hr & Hall & Ht).
  { intros [[p a] m] x Hc Hx. cbn [fst snd] in Hx.
    apply calls_list_arguments in Hc. destruct Hc as (_ & -> & _).
    apply getitem_or_empty_In in Hx. destruct Hx as (_ & rows & Hin & Hx).
    apply get_tags_csv_row. eapply Hcsv; eauto. }
  cbn [app] in Hp, Hr, Hall, Ht.
  exists self'. split; [rewrite evaluate_calls_list; exact E|].
  split; [|split; [|split; [|split]]].
  - intros pair Hin. specialize (Hp pair).
    destruct (filter_one _ _ (calls_list_present annotations matches pair Ha Hm Hin))
      as ([[p a] m] & Ef & Hc & Hk).
    apply bool_decide_eq_true_1 in Hk. cbn [fst] in Hk. subst p.
    apply calls_list_arguments in Hc. destruct Hc as (_ & -> & ->).
    rewrite Ef in Hp. cbn [total_if_any total fold_left fst snd] in Hp.
    rewrite add4_zero in Hp. unfold counts_at in Hp.
    destruct (_pair_results self' !! pair) as [r|]; [|discriminate].
    exists r. split; [reflexivity|].
    cbn [fmap option_fmap option_map] in Hp. congruence.
  - intros pair Hn. specialize (Hp pair).
    pose proof (calls_list_absent annotations matches pair Hn) as H0.
    unfold calls_for in H0. apply length_zero_iff_nil in H0. rewrite H0 in Hp.
    unfold counts_at in Hp. destruct (_pair_results self' !! pair); [discriminate|reflexivity].
  - intros ref Hn. specialize (Hr ref).
    assert (H0 : List.filter (fun c => bool_decide (snd (fst (fst c)) = ref))
                   (calls_list annotations matches) = []).
    { destruct (List.filter _ (calls_list annotations matches)) as [|[[p a] m] r] eqn:Ef;
        [reflexivity|].
      assert (Hin : In (p, a, m) (List.filter (fun c => bool_decide (snd (fst (fst c)) = ref))
                                    (calls_list annotations matches)))
        by (rewrite Ef; now left).
      apply filter_In in Hin. destruct Hin as [Hc Hk].
      apply bool_decide_eq_true_1 in Hk. cbn [fst snd] in Hk.
      apply calls_list_arguments in Hc. destruct Hc as (Hu & _).
      destruct p as [q ref']. cbn [snd] in Hk. subst ref'. destruct (Hn q Hu). }
    rewrite H0 in Hr. unfold counts_at in Hr.
    destruct (_ref_results self' !! ref); [discriminate|reflexivity].
  - intros tag Hs. destruct (Ht tag Hs) as ([[p a] m] & x & tags & Hc & Hx & Eg & Hi).
    cbn [fst snd] in Hx. apply calls_list_arguments in Hc. destruct Hc as (_ & -> & _).
    exists p, x, tags. repeat split; auto.
    apply getitem_or_empty_In in Hx. tauto.
  - rewrite evaluate_calls_eq. exact Hall.
Qed.

(** ** Instances of the theorems *)

Lemma valid_segment_of fields rb re qb qe : valid_segment (segment_of fields rb re qb qe).
Proof. split; apply wf_closedopen. Qed.

Ltac nodup_keys :=
  repeat (apply List.NoDup_cons; [cbn; intuition congruence|]); apply List.NoDup_nil.

Lemma evaluate_scores_each_pair_once_witness :
  let annotations := [(("q1", "r1"), [1%nat])] in
  let matches := [(("q1", "r1"), [2%nat]); (("q2", "r1"), [3%nat])] in
  List.NoDup (keys annotations) /\ List.NoDup (keys matches)
  /\ calls_for ("q2", "r1") (evaluate_calls annotations matches) = 1%nat.
Proof.
  intros annotations matches.
  assert (Ha : List.NoDup (keys annotations)) by (cbn; nodup_keys).
  assert (Hm : List.NoDup (keys matches)) by (cbn; nodup_keys).
  split; [exact Ha|]. split; [exact Hm|].
  apply (proj1 (proj2 (evaluate_scores_each_pair_once annotations matches Ha Hm))).
  right. cbn. right. left. reflexivity.
Defined.

Lemma csv_row_empty : csv_row ∅.
Proof. intros key v H. rewrite lookup_empty in H. discriminate. Qed.

Lemma track_evaluator_counts_witness :
  let annotations := [(("q1", "r1"), [(∅ : gmap string pyval)])] in
  let matches := [(("q1", "r1"), [(∅ : gmap string pyval)]);
                  (("q2", "r1"), [(∅ : gmap string pyval)])] in
  List.NoDup (keys annotations) /\ List.NoDup (keys matches)
  /\ (forall pair rows a, In (pair, rows) annotations -> In a rows -> csv_row a)
  /\ exists self',
      evaluate TrackEvaluator._evaluate_pair annotations matches TrackEvaluator.__init__
      = Some self'
      /\ counts (_all_results self') = (1, 0, 1, 0).
Proof.
  intros annotations matches.
  assert (Ha : List.NoDup (keys annotations)) by (cbn; nodup_keys).
  assert (Hm : List.NoDup (keys matches)) by (cbn; nodup_keys).
  assert (Hc : forall pair rows a, In (pair, rows) annotations -> In a rows -> csv_row a).
  { intros pair rows a [[= <- <-]|[]] [<-|[]]. exact csv_row_empty. }
  split; [exact Ha|]. split; [exact Hm|]. split; [exact Hc|].
  destruct (proj2 (track_evaluator_counts annotations matches Ha Hm Hc))
    as (self' & E & _ & _ & _ & _ & Hall).
  exists self'. split; [exact E|]. rewrite Hall. reflexivity.
Defined.



Lemma bounding_box_scores_in_unit_interval_witness :
  let annotation := [segment_of ∅ 10 20 0 10] in
  let match_ := [segment_of ∅ 15 30 5 10; segment_of ∅ 10 12 0 1] in
  Forall valid_segment annotation /\ Forall valid_segment match_
  /\ (0 <= fst (BoundingBoxSegmentEvaluator.scores annotation match_) <= 1)%Q.
Proof.
  intros annotation match_.
  assert (Ha : Forall valid_segment annotation)
    by (constructor; [apply valid_segment_of | constructor]).
  assert (Hm : Forall valid_segment match_)
    by (constructor; [apply valid_segment_of
                     | constructor; [apply valid_segment_of | constructor]]).
  split; [exact Ha|]. split; [exact Hm|].
  exact (proj1 (bounding_box_scores_in_unit_interval annotation match_ Ha Hm)).
Defined.

Lemma tag_bands_inclusive_witness :
  let d : gmap string pyval := {[ "tempo" := VStr "100"; "pitch" := VStr "200" ]} in
  let tags := ["pitch:medium"; "noise:none"; "merge_prev:begin"; "merge_next:end"] in
  get_tags_from_annotation d = Some tags
  /\ (get_item_as_int d FIELD_ANNOTATION_TEMPO 100 = 100 ->
      List.filter band_tag tags
      = if decide (get_item_as_int d FIELD_ANNOTATION_PITCH 0 = 0)
        then ["pitch:exact"; "tempo:exact"; "speed:exact"]
        else if decide (MIN_PITCH_SMALL <= get_item_as_int d FIELD_ANNOTATION_PITCH 0
                        <= MAX_PITCH_SMALL) then ["pitch:small"]
        else if decide (MIN_PITCH_MEDIUM <= get_item_as_int d FIELD_ANNOTATION_PITCH 0
                        <= MAX_PITCH_MEDIUM) then ["pitch:medium"]
        else ["pitch:large"]).
Proof.
  intros d tags.
  assert (H : get_tags_from_annotation d = Some tags) by (vm_compute; reflexivity).
  split; [exact H|].
  exact (proj1 (proj2 (tag_bands_inclusive d tags H))).
Defined.

Lemma empty_accumulator_get_witness :
  let self := RecallPrecisionResults.Build [] [] 3%positive in
  RecallPrecisionResults._recalls self = []
  /\ RecallPrecisionResults._precisions self = []
  /\ RecallPrecisionResults.get self = Some (0, 1, 0)%Q.
Proof.
  intros self. split; [reflexivity|]. split; [reflexivity|].
  exact (empty_accumulator_get self eq_refl eq_refl).
Defined.

Lemma calculate_f_score_formula_witness :
  (0 <= 1 # 2)%Q /\ (0 <= 1)%Q
  /\ ((0 < (1 # 2) + 1)%Q ->
      calculate_f_score (1 # 2) 1 = Some (10 * (1 # 2) * 1 / (9 * (1 # 2) + 1))%Q).
Proof.
  assert (H1 : (0 <= 1 # 2)%Q) by discriminate.
  assert (H2 : (0 <= 1)%Q) by discriminate.
  split; [exact H1|]. split; [exact H2|].
  exact (proj1 (calculate_f_score_formula (1 # 2) 1 H1 H2)).
Defined.

(** * Further properties of the scoring engine *)

(** ** Rounding and the F-score *)

(** [round_towards_target] with an integer target: the result is
    between the value and the target, less than 1 away from the value,
    and the value itself when the value is an integer. *)
Theorem round_towards_target_between (value : Q) (target : Z) :
  let r := round_towards_target value (inject_Z target) in
  ((value <= inject_Z target)%Q -> (value <= inject_Z r)%Q /\ r <= target)
  /\ ((inject_Z target <= value)%Q -> target <= r /\ (inject_Z r <= value)%Q)
  /\ (inject_Z r - 1 < value)%Q /\ (value < inject_Z r + 1)%Q
  /\ (forall n : Z, (value == inject_Z n)%Q -> r = n).
Proof.
  intros r. subst r. unfold round_towards_target.
  destruct (Qltb value (inject_Z target)) eqn:E.
  - apply Qltb_lt in E. repeat split.
    + apply Qle_ceiling.
    + rewrite <- (Qceiling_Z target). apply Qceiling_resp_le. exact H.
    + exfalso. exact (Qlt_not_le _ _ E H).
    + exfalso. exact (Qlt_not_le _ _ E H).
    + pose proof (Qceiling_lt value) as H. unfold Z.sub in H.
      rewrite inject_Z_plus in H. exact H.
    + eapply Qle_lt_trans; [apply Qle_ceiling|]. lra.
    + intros n Hn. rewrite (Qceiling_comp _ _ Hn). apply Qceiling_Z.
  - apply Qltb_ge in E. repeat split.
    + pose proof (Qle_antisym _ _ H E) as Heq.
      rewrite (Qfloor_comp _ _ Heq), Qfloor_Z. exact H.
    + pose proof (Qle_antisym _ _ H E) as Heq.
      rewrite (Qfloor_comp _ _ Heq), Qfloor_Z. lia.
    + rewrite <- (Qfloor_Z target). apply Qfloor_resp_le. exact E.
    + apply Qfloor_le.
    + eapply Qlt_le_trans; [|apply Qfloor_le]. lra.
    + pose proof (Qlt_floor value) as H. rewrite inject_Z_plus in H. exact H.
    + intros n Hn. rewrite (Qfloor_comp _ _ Hn). apply Qfloor_Z.
Qed.

(** For a recall and a precision that are not negative, the F-score is
    returned and lies between the two; so it is in [[0, 1]] when they
    are. *)
Theorem calculate_f_score_between (R P : Q) :
  (0 <= R)%Q -> (0 <= P)%Q ->
  exists f, calculate_f_score R P = Some f
    /\ ((R <= P)%Q -> (R <= f)%Q /\ (f <= P)%Q)
    /\ ((P <= R)%Q -> (P <= f)%Q /\ (f <= R)%Q).
Proof.
  intros HR HP. unfold calculate_f_score.
  destruct (Qltb 0 (R + P)) eqn:E.
  - apply Qltb_lt in E. unfold truediv.
    assert (HD : (0 < 9 * R + P)%Q) by lra.
    destruct (Qeq_bool (9 * R + P) 0) eqn:E0.
    { apply Qeq_bool_iff in E0. rewrite E0 in HD. discriminate HD. }
    eexists. split; [reflexivity|]. split; intros Hle; split.
    + apply Qle_shift_div_l; [exact HD|]. nra.
    + apply Qle_shift_div_r; [exact HD|]. nra.
    + apply Qle_shift_div_l; [exact HD|]. nra.
    + apply Qle_shift_div_r; [exact HD|]. nra.
  - apply Qltb_ge in E. exists 0%Q. split; [reflexivity|].
    split; intros Hle; split; lra.
Qed.

Lemma calculate_f_score_between_witness :
  (0 <= 1 # 2)%Q /\ (0 <= 1)%Q
  /\ exists f, calculate_f_score (1 # 2) 1 = Some f
       /\ (((1 # 2) <= 1)%Q -> ((1 # 2) <= f)%Q /\ (f <= 1)%Q)
       /\ ((1 <= (1 # 2))%Q -> (1 <= f)%Q /\ (f <= (1 # 2))%Q).
Proof.
  assert (H1 : (0 <= 1 # 2)%Q) by discriminate.
  assert (H2 : (0 <= 1)%Q) by discriminate.
  split; [exact H1|]. split; [exact H2|].
  exact (calculate_f_score_between (1 # 2) 1 H1 H2).
Defined.

(** ** The accumulators *)

(** [PositivesNegativesResults.add] with counts that are not negative
    appends a recall and a precision of [[0, 1]], the recall 0 when
    [tp + fn = 0] and the precision 1 when [tp + fp = 0], and adds the
    counts to the sums. *)
Theorem positives_negatives_add_ratios (tp up fp fn : Z) (tags : tags_arg)
    (self : PositivesNegativesResults.t) (h : gmap loc (gset string)) :
  0 <= tp -> 0 <= fp -> 0 <= fn ->
  let self' := fst (PositivesNegativesResults.add tp up fp fn tags self h) in
  exists r p,
    RecallPrecisionResults._recalls (PositivesNegativesResults.super self')
    = RecallPrecisionResults._recalls (PositivesNegativesResults.super self) ++ [r]
    /\ RecallPrecisionResults._precisions (PositivesNegativesResults.super self')
       = RecallPrecisionResults._precisions (PositivesNegativesResults.super self) ++ [p]
    /\ in_unit_interval r /\ in_unit_interval p
    /\ (tp + fn = 0 -> r = 0%Q) /\ (tp + fp = 0 -> p = 1%Q)
    /\ (0 < tp + fn -> r = (inject_Z tp / inject_Z (tp + fn))%Q)
    /\ (0 < tp + fp -> p = (inject_Z tp / inject_Z (tp + fp))%Q)
    /\ counts self' = add4 (counts self) (tp, up, fp, fn).
Proof.
  intros Htp Hfp Hfn self'. subst self'. cbn.
  assert (Hq : forall a b, 0 <= a -> 0 <= b -> 0 < a + b ->
                 in_unit_interval (inject_Z a / inject_Z (a + b))).
  { intros a b Ha Hb Hab.
    assert (Hd : (0 < inject_Z (a + b))%Q) by (rewrite <- (Zlt_Qlt 0); exact Hab).
    split.
    - apply Qle_shift_div_l; [exact Hd|]. rewrite Qmult_0_l. rewrite <- (Zle_Qle 0). exact Ha.
    - apply Qle_shift_div_r; [exact Hd|]. rewrite Qmult_1_l. rewrite <- Zle_Qle. lia. }
  eexists. eexists. split; [reflexivity|]. split; [reflexivity|].
  repeat match goal with |- _ /\ _ => split end.
  - destruct (Z.ltb_spec 0 (tp + fn)); [now apply Hq | split; discriminate].
  - destruct (Z.ltb_spec 0 (tp + fp)); [now apply Hq | split; discriminate].
  - intros ->. reflexivity.
  - intros ->. reflexivity.
  - intros H. apply Z.ltb_lt in H. now rewrite H.
  - intros H. apply Z.ltb_lt in H. now rewrite H.
  - reflexivity.
Qed.

Lemma positives_negatives_add_ratios_witness :
  let self := fst (PositivesNegativesResults.__init__ module_store) in
  let self' := fst (PositivesNegativesResults.add 3 1 0 2 (Fresh ["echo"]) self module_store) in
  0 <= 3 /\ 0 <= 0 /\ 0 <= 2
  /\ exists r p,
      RecallPrecisionResults._recalls (PositivesNegativesResults.super self')
      = RecallPrecisionResults._recalls (PositivesNegativesResults.super self) ++ [r]
      /\ RecallPrecisionResults._precisions (PositivesNegativesResults.super self')
         = RecallPrecisionResults._precisions (PositivesNegativesResults.super self) ++ [p]
      /\ in_unit_interval r /\ in_unit_interval p
      /\ (3 + 2 = 0 -> r = 0%Q) /\ (3 + 0 = 0 -> p = 1%Q)
      /\ (0 < 3 + 2 -> r = (inject_Z 3 / inject_Z (3 + 2))%Q)
      /\ (0 < 3 + 0 -> p = (inject_Z 3 / inject_Z (3 + 0))%Q)
      /\ counts self' = add4 (counts self) (3, 1, 0, 2).
Proof.
  intros self self'.
  assert (H1 : 0 <= 3) by lia. assert (H2 : 0 <= 0) by lia. assert (H3 : 0 <= 2) by lia.
  split; [exact H1|]. split; [exact H2|]. split; [exact H3|].
  exact (positives_negatives_add_ratios 3 1 0 2 (Fresh ["echo"]) self module_store H1 H2 H3).
Defined.

(** Without the sign condition the recall can leave [[0, 1]]. *)
Lemma positives_negatives_add_negative :
  RecallPrecisionResults._recalls
    (PositivesNegativesResults.super
       (fst (PositivesNegativesResults.add 2 0 0 (-1) (Fresh [])
               (fst (PositivesNegativesResults.__init__ module_store)) module_store)))
  = [(2 # 1)%Q].
Proof. reflexivity. Qed.

Lemma fold_Qplus_bounds (l : list Q) (a : Q) :
  Forall in_unit_interval l ->
  (a <= fold_left Qplus l a)%Q
  /\ (fold_left Qplus l a <= a + inject_Z (Z.of_nat (length l)))%Q.
Proof.
  intros Hl. revert a. induction Hl as [|x r [Hx0 Hx1] Hr IH]; intros a.
  - cbn [fold_left length Z.of_nat]. change (inject_Z 0) with 0%Q.
    split; [apply Qle_refl | rewrite Qplus_0_r; apply Qle_refl].
  - cbn [fold_left length]. destruct (IH (a + x)%Q) as [I1 I2]. split; [lra|].
    rewrite Nat2Z.inj_succ. unfold Z.succ. rewrite inject_Z_plus.
    change (inject_Z 1) with 1%Q. lra.
Qed.

Lemma Qmean_bounds (l : list Q) :
  Forall in_unit_interval l -> l <> [] ->
  exists m, truediv (Qsum l) (inject_Z (Z.of_nat (length l))) = Some m
    /\ m = Qmean l /\ in_unit_interval m.
Proof.
  intros Hl Hne. unfold truediv, Qmean.
  assert (Hn : (0 < inject_Z (Z.of_nat (length l)))%Q).
  { rewrite <- (Zlt_Qlt 0). destruct l; [contradiction | cbn; lia]. }
  destruct (Qeq_bool (inject_Z (Z.of_nat (length l))) 0) eqn:E.
  { apply Qeq_bool_iff in E. rewrite E in Hn. discriminate Hn. }
  eexists. split; [reflexivity|]. split; [reflexivity|].
  destruct (fold_Qplus_bounds l 0 Hl) as [B1 B2]. fold (Qsum l) in B1, B2. split.
  - apply Qle_shift_div_l; [exact Hn|]. lra.
  - apply Qle_shift_div_r; [exact Hn|]. lra.
Qed.

Lemma recall_precision_after_fields (observations : list (Q * Q * list string))
    (st : RecallPrecisionResults.t * gmap loc (gset string)) :
  let st' := fold_left (fun st o =>
                          RecallPrecisionResults.add (fst (fst o)) (snd (fst o))
                            (Fresh (snd o)) (fst st) (snd st))
                       observations st in
  RecallPrecisionResults._recalls (fst st')
  = RecallPrecisionResults._recalls (fst st) ++ map (fun o => fst (fst o)) observations
  /\ RecallPrecisionResults._precisions (fst st')
     = RecallPrecisionResults._precisions (fst st) ++ map (fun o => snd (fst o)) observations
  /\ RecallPrecisionResults._tags (fst st') = RecallPrecisionResults._tags (fst st)
  /\ deref (snd st') (RecallPrecisionResults._tags (fst st))
     = deref (snd st) (RecallPrecisionResults._tags (fst st))
       ∪ list_to_set (concat (map snd observations)).
Proof.
  revert st. induction observations as [|o r IH]; intros st.
  - cbn. rewrite !app_nil_r. repeat split. now rewrite (right_id_L ∅ (∪)).
  - cbn [fold_left]. destruct (IH (RecallPrecisionResults.add (fst (fst o)) (snd (fst o))
                                     (Fresh (snd o)) (fst st) (snd st)))
      as (I1 & I2 & I3 & I4).
    cbn [RecallPrecisionResults.add fst snd RecallPrecisionResults._recalls
           RecallPrecisionResults._precisions RecallPrecisionResults._tags] in *.
    rewrite I1, I2, I3, I4. cbn [map concat]. rewrite <- !app_assoc. repeat split.
    unfold set_update, deref at 1. rewrite lookup_insert_eq. cbn [tags_of].
    rewrite list_to_set_app_L. now rewrite (assoc_L (∪)).
Qed.

(** After an [add] for each of one or more observations of [[0, 1]] to a
    new accumulator, [get] raises nothing and returns the mean of the
    recalls, the mean of the precisions and their F-score, all of them in
    [[0, 1]]; the tags of the accumulator are those of the
    observations. *)
Theorem recall_precision_get_means (observations : list (Q * Q * list string))
    (h : gmap loc (gset string)) :
  observations <> [] ->
  Forall (fun o => in_unit_interval (fst (fst o)) /\ in_unit_interval (snd (fst o)))
    observations ->
  let self := fst (recall_precision_after observations h) in
  let h' := snd (recall_precision_after observations h) in
  exists f,
    RecallPrecisionResults.get self
    = Some (Qmean (map (fun o => fst (fst o)) observations),
            Qmean (map (fun o => snd (fst o)) observations), f)
    /\ in_unit_interval (Qmean (map (fun o => fst (fst o)) observations))
    /\ in_unit_interval (Qmean (map (fun o => snd (fst o)) observations))
    /\ in_unit_interval f
    /\ deref h' (RecallPrecisionResults._tags self)
       = list_to_set (concat (map snd observations)).
Proof.
  intros Hne Hobs self h'. subst self h'. unfold recall_precision_after.
  destruct (recall_precision_after_fields observations (RecallPrecisionResults.__init__ h))
    as (I1 & I2 & I3 & I4).
  cbn zeta in I1, I2, I3, I4.
  set (st' := fold_left _ observations (RecallPrecisionResults.__init__ h)) in *.
  cbn [RecallPrecisionResults.__init__ new_set fst snd RecallPrecisionResults._recalls
         RecallPrecisionResults._precisions RecallPrecisionResults._tags app] in I1, I2, I3, I4.
  assert (Hr : Forall in_unit_interval (map (fun o => fst (fst o)) observations)).
  { apply List.Forall_map. eapply Forall_impl; [exact Hobs|]. cbn. tauto. }
  assert (Hp : Forall in_unit_interval (map (fun o => snd (fst o)) observations)).
  { apply List.Forall_map. eapply Forall_impl; [exact Hobs|]. cbn. tauto. }
  assert (Hner : map (fun o : Q * Q * list string => fst (fst o)) observations <> []).
  { destruct observations; [contradiction | discriminate]. }
  assert (Hnep : map (fun o : Q * Q * list string => snd (fst o)) observations <> []).
  { destruct observations; [contradiction | discriminate]. }
  destruct (Qmean_bounds _ Hr Hner) as (r & Er & -> & Br).
  destruct (Qmean_bounds _ Hp Hnep) as (p & Ep & -> & Bp).
  destruct (calculate_f_score_between _ _ (proj1 Br) (proj1 Bp)) as (f & Ef & F1 & F2).
  exists f. split; [|split; [exact Br|split; [exact Bp|split]]].
  - unfold RecallPrecisionResults.get. rewrite I1, I2.
    destruct (map (fun o => fst (fst o)) observations) as [|x l] eqn:E1; [contradiction|].
    destruct (map (fun o => snd (fst o)) observations) as [|y k] eqn:E2; [contradiction|].
    rewrite Er. cbn [mbind option_bind]. rewrite Ep. cbn [mbind option_bind].
    rewrite Ef. reflexivity.
  - destruct Br as [Br0 Br1], Bp as [Bp0 Bp1].
    destruct (Qlt_le_dec (Qmean (map (fun o => fst (fst o)) observations))
                (Qmean (map (fun o => snd (fst o)) observations))) as [Hlt|Hle].
    + destruct (F1 (Qlt_le_weak _ _ Hlt)) as [G1 G2]. split; lra.
    + destruct (F2 Hle) as [G1 G2]. split; lra.
  - rewrite I3, I4. unfold deref at 1. rewrite lookup_insert_eq.
    now rewrite (left_id_L ∅ (∪)).
Qed.

Lemma recall_precision_get_means_witness :
  let observations := [(1 # 2, 1, ["echo"])%Q; (0, 1 # 4, ["reverb"])%Q] in
  observations <> []
  /\ Forall (fun o => in_unit_interval (fst (fst o)) /\ in_unit_interval (snd (fst o)))
       observations
  /\ exists f,
      RecallPrecisionResults.get (fst (recall_precision_after observations module_store))
      = Some (Qmean (map (fun o => fst (fst o)) observations),
              Qmean (map (fun o => snd (fst o)) observations), f).
Proof.
  intros observations.
  assert (H1 : observations <> []) by discriminate.
  assert (H2 : Forall (fun o => in_unit_interval (fst (fst o))
                                /\ in_unit_interval (snd (fst o))) observations).
  { repeat constructor; discriminate. }
  split; [exact H1|]. split; [exact H2|].
  destruct (recall_precision_get_means observations module_store H1 H2) as (f & E & _).
  exists f. exact E.
Defined.

(** ** The length-weighted evaluator on whole lists *)

Lemma fold_pair_sums (F : nat -> Z * Z) (idx : list nat) (acc : Z * Z) :
  fold_left (fun '(x, y) i => let '(u, v) := F i in (x + u, y + v)) idx acc
  = (fst acc + Zsum (map (fun i => fst (F i)) idx),
     snd acc + Zsum (map (fun i => snd (F i)) idx)).
Proof.
  revert acc. induction idx as [|i r IH]; intros [x y].
  - cbn. f_equal; lia.
  - cbn [fold_left map]. destruct (F i) as [u v] eqn:E. rewrite IH.
    cbn [fst snd Zsum fold_right].
    fold (Zsum (map (fun i => fst (F i)) r)). fold (Zsum (map (fun i => snd (F i)) r)).
    f_equal; lia.
Qed.

(** The scores, as sums over the indices. *)
Lemma length_scores_sums (annotation match_ : list Segment) :
  LengthSegmentEvaluator.scores annotation match_
  = let ov := overlaps annotation match_ in
    let A := fun a => LengthSegmentEvaluator.annotation_scores ov annotation (length match_) a in
    let M := fun m => LengthSegmentEvaluator.match_scores ov annotation match_ m in
    (Zsum (map (fun a => fst (A a)) (range (length annotation))),
     Zsum (map (fun m => fst (M m)) (range (length match_))),
     Zsum (map (fun m => snd (M m)) (range (length match_))),
     Zsum (map (fun a => snd (A a)) (range (length annotation)))).
Proof.
  unfold LengthSegmentEvaluator.scores. cbn zeta.
  rewrite (fold_pair_sums
             (fun a => LengthSegmentEvaluator.annotation_scores (overlaps annotation match_)
                         annotation (length match_) a)).
  rewrite (fold_pair_sums
             (fun m => LengthSegmentEvaluator.match_scores (overlaps annotation match_)
                         annotation match_ m)).
  reflexivity.
Qed.

Lemma round_zero (v target : Q) : (v == 0)%Q -> round_towards_target v target = 0.
Proof.
  intros Hv. unfold round_towards_target.
  destruct (Qltb v target); [rewrite (Qceiling_comp _ _ Hv) | rewrite (Qfloor_comp _ _ Hv)];
    reflexivity.
Qed.

Lemma round_at_target (v : Q) (target : Z) :
  (v == inject_Z target)%Q -> round_towards_target v (inject_Z target) = target.
Proof.
  intros Hv. unfold round_towards_target.
  destruct (Qltb v (inject_Z target)) eqn:E.
  - apply Qltb_lt in E. rewrite Hv in E. exfalso. exact (Qlt_irrefl _ E).
  - rewrite (Qfloor_comp _ _ Hv). apply Qfloor_Z.
Qed.

Lemma ratio_scales_back (R Qn : Z) :
  round_towards_target (inject_Z Qn * ratio R Qn 1) (inject_Z R) = if Qn =? 0 then 0 else R.
Proof.
  unfold ratio. destruct (Z.eqb_spec Qn 0) as [->|Hne]; cbn [negb].
  - apply round_zero. reflexivity.
  - apply round_at_target. field. intros H. apply Hne.
    apply (inject_Z_injective Qn 0). exact H.
Qed.

(** With no annotation, each match counts for the length of its
    reference interval as False Positive, and nothing else is counted. *)
Theorem length_scores_matches_only (match_ : list Segment) :
  LengthSegmentEvaluator.scores [] match_
  = (0, 0, Zsum (map (fun m => get_interval_length (reference_interval m)) match_), 0).
Proof.
  rewrite length_scores_sums. cbn zeta. cbn [length range seq map Zsum fold_right].
  assert (HM : forall m,
            LengthSegmentEvaluator.match_scores (overlaps [] match_) [] match_ m
            = (0, get_interval_length (reference_interval (nth m match_ no_segment)))).
  { intros m. unfold LengthSegmentEvaluator.match_scores, LengthSegmentEvaluator.match_loop.
    cbn [length range seq fold_left]. cbn [get_interval_length empty List.filter map fold_right].
    rewrite (round_zero (inject_Z 0 * _)) by apply Qmult_0_l.
    rewrite ratio_scales_back.
    pose proof (length_nonneg (reference_interval (nth m match_ no_segment))).
    destruct (get_interval_length (query_interval (nth m match_ no_segment)) =? 0);
      f_equal; lia. }
  rewrite (Zsum_map_ext_in _ (fun _ => 0)) by (intros m _; now rewrite HM).
  rewrite (Zsum_map_ext_in (fun m => snd _)
             (fun m => get_interval_length (reference_interval (nth m match_ no_segment))))
    by (intros m _; now rewrite HM).
  rewrite Zsum_map_zero by reflexivity.
  rewrite (map_range_nth (fun m => get_interval_length (reference_interval m))).
  reflexivity.
Qed.

(** With no match, each annotation counts as False Negative for the
    larger of the length of its reference interval and of its
    tempo-scaled query length rounded towards 0, and nothing else is
    counted. *)
Theorem length_scores_annotations_only (annotation : list Segment) :
  LengthSegmentEvaluator.scores annotation []
  = (0, 0, 0,
     Zsum (map (fun a =>
                  Z.max (get_interval_length (reference_interval a))
                    (round_towards_target
                       (inject_Z (get_interval_length (query_interval a))
                        * LengthSegmentEvaluator.tempo_of a) 0))
               annotation)).
Proof.
  rewrite length_scores_sums. cbn zeta. cbn [length range seq map Zsum fold_right].
  assert (HA : forall a,
            LengthSegmentEvaluator.annotation_scores (overlaps annotation []) annotation 0 a
            = (0, Z.max (get_interval_length (reference_interval (nth a annotation no_segment)))
                    (round_towards_target
                       (inject_Z (get_interval_length
                                    (query_interval (nth a annotation no_segment)))
                        * LengthSegmentEvaluator.tempo_of (nth a annotation no_segment)) 0))).
  { intros a. unfold LengthSegmentEvaluator.annotation_scores, unions_of_annotation.
    cbn [range seq fold_left diff]. cbn [get_interval_length empty List.filter map fold_right].
    rewrite (round_zero (inject_Z 0 * _)) by apply Qmult_0_l. reflexivity. }
  rewrite (Zsum_map_ext_in _ (fun _ => 0)) by (intros a _; now rewrite HA).
  rewrite Zsum_map_zero by reflexivity.
  rewrite (Zsum_map_ext_in (fun a => snd _) _ _ (fun a _ => f_equal snd (HA a))).
  cbn [snd].
  rewrite (map_range_nth
             (fun a => Z.max (get_interval_length (reference_interval a))
                         (round_towards_target
                            (inject_Z (get_interval_length (query_interval a))
                             * LengthSegmentEvaluator.tempo_of a) 0))).
  reflexivity.
Qed.
